(** * gcoordinator-lite: contour extraction and polygon containment

    A shallow embedding of [gcoordinator/utils/polygon.py] and
    [gcoordinator/utils/contour.py], and the properties of the two
    functions [points_in_polygon] and [find_contours].

    Numbers.  The Python code computes with IEEE doubles.  Here a number is
    either [NaN] or an exact rational: rounding and overflow are not
    modelled, and infinities are not represented (a division by zero gives
    [NaN]).  Comparisons follow IEEE: every ordered comparison with [NaN]
    is false and [!=] with [NaN] is true.

    Arrays.  A vectorised numpy expression is modelled by the function that
    computes one of its elements, mapped over the cells, the edges or the
    points; boolean-mask indexing is [filter] over the cells in row-major
    order.

    Effects.  [_connect_segments_fast] is written in an error monad
    ([outcome]): indexing out of range and [round] on a NaN raise, and the
    [while True] loop runs on a bound on its iterations, which the call is
    proved never to exhaust.

    The file has the embedding first, then the definitions used to state
    the properties, then the properties: [points_in_polygon], the marching
    squares table and interpolation, the stitching of segments into paths,
    [find_contours], and the behaviour under scaling. *)

From Stdlib Require Import QArith Qcanon Qround Qcabs Lqa.
From stdpp Require Import numbers list gmap.

Close Scope Qc_scope.
Close Scope Q_scope.

#[local] Set Warnings "-clear-no-such-hyp".

(** ** Numbers *)

Inductive float := NaN | Fin (q : Qc).

Global Instance float_eq_dec : EqDecision float.
Proof. solve_decision. Defined.

Global Instance float_inhabited : Inhabited float := populate NaN.

Definition lift2 (f : Qc → Qc → Qc) (a b : float) : float :=
  match a, b with
  | Fin p, Fin q => Fin (f p q)
  | _, _ => NaN
  end.

Definition fadd : float → float → float := lift2 Qcplus.
Definition fsub : float → float → float := lift2 Qcminus.
Definition fmul : float → float → float := lift2 Qcmult.

Definition fdiv (a b : float) : float :=
  match a, b with
  | Fin p, Fin q => if decide (q = Q2Qc 0%Q) then NaN else Fin (p / q)%Qc
  | _, _ => NaN
  end.

Definition fabs (a : float) : float :=
  match a with
  | Fin p => Fin (Qcabs p)
  | NaN => NaN
  end.

Definition isnan (a : float) : bool :=
  match a with
  | NaN => true
  | Fin _ => false
  end.

Definition cmp2 (f : Qc → Qc → bool) (a b : float) : bool :=
  match a, b with
  | Fin p, Fin q => f p q
  | _, _ => false
  end.

Definition flt : float → float → bool := cmp2 (λ p q, bool_decide (p < q)%Qc).
Definition fle : float → float → bool := cmp2 (λ p q, bool_decide (p <= q)%Qc).
Definition fgt (a b : float) : bool := flt b a.
Definition fge (a b : float) : bool := fle b a.
Definition feq : float → float → bool := cmp2 (λ p q, bool_decide (p = q)).
Definition fne (a b : float) : bool := negb (feq a b).

Declare Scope float_scope.
Delimit Scope float_scope with F.
Bind Scope float_scope with float.
Infix "+" := fadd : float_scope.
Infix "-" := fsub : float_scope.
Infix "*" := fmul : float_scope.
Infix "/" := fdiv : float_scope.
Infix "<?" := flt : float_scope.
Infix "<=?" := fle : float_scope.
Infix ">?" := fgt : float_scope.
Infix ">=?" := fge : float_scope.
Infix "==?" := feq (at level 70) : float_scope.
Infix "!=?" := fne (at level 70) : float_scope.

(** Decimal literals of the source. *)
Definition lit (q : Q) : float := Fin (Q2Qc q).

(** [np.where(c, a, b)] on one element.  Both [a] and [b] are evaluated by
    the caller before the selection. *)
Definition np_where {A} (c : bool) (a b : A) : A := if c then a else b.

(** Python's [round(v)] with one argument: the nearest integer, ties to the
    even one; it raises on a NaN, which is [None] here. *)
Definition round_half_even (q : Qc) : Z :=
  let f := Qfloor q in
  let r := (q - Q2Qc (inject_Z f))%Qc in
  if bool_decide (r < Q2Qc 0.5%Q)%Qc then f
  else if bool_decide (Q2Qc 0.5%Q < r)%Qc then (f + 1)%Z
  else if Z.even f then f else (f + 1)%Z.

Definition py_round (a : float) : option Z :=
  match a with
  | Fin q => Some (round_half_even q)
  | NaN => None
  end.

Abbreviation point := (float * float)%type (only parsing).

(** ** gcoordinator/utils/polygon.py *)

(** [np.allclose(a, b)] with its defaults [rtol=1e-05], [atol=1e-08]:
    [|a - b| <= atol + rtol * |b|] on every component. *)
Definition rtol : float := lit 1e-5%Q.
Definition atol : float := lit 1e-8%Q.

Definition isclose (a b : float) : bool :=
  (fabs (a - b) <=? atol + rtol * fabs b)%F.

Definition np_allclose (a b : point) : bool :=
  isclose a.1 b.1 && isclose a.2 b.2.

(** Lines 27-29: the first vertex is appended unless the last vertex is
    already close to it. *)
Definition close_polygon (polygon : list point) : list point :=
  match polygon with
  | [] => []
  | v0 :: _ =>
      if negb (np_allclose v0 (List.last polygon v0))
      then polygon ++ [v0]
      else polygon
  end.

(** Lines 32-35: edge [k] runs from row [k] of [polygon[:-1]] to row [k] of
    [polygon[1:]]. *)
Definition edges (polygon : list point) : list (point * point) :=
  zip (removelast polygon) (tail polygon).

(** Lines 47-62, one entry of the (N, M) array [crossings]. *)
Definition crossing (p : point) (e : point * point) : bool :=
  let '((x1, y1), (x2, y2)) := e in
  let '(px, py) := p in
  let non_horizontal := (y1 !=? y2)%F in
  let cond1 := xorb (y1 >? py)%F (y2 >? py)%F in
  let dy := (y2 - y1)%F in
  let dy := np_where (dy ==? lit 0%Q)%F (lit 1%Q) dy in
  let x_intersect := (x1 + (py - y1) * (x2 - x1) / dy)%F in
  let cond2 := (px <? x_intersect)%F in
  cond1 && cond2 && non_horizontal.

(** [np.sum(crossings, axis=1)] for one point. *)
Definition crossing_count (p : point) (es : list (point * point)) : nat :=
  length (filter (λ e, crossing p e = true) es).

Definition points_in_polygon (points polygon : list point) : list bool :=
  let n_points := length points in
  let n_vertices := length polygon in
  if n_vertices <? 3 then replicate n_points false
  else
    let polygon := close_polygon polygon in
    let es := edges polygon in
    (λ p, crossing_count p es mod 2 =? 1) <$> points.

(** [point_in_polygon(x, y, polygon)]: element 0 of the batch of one. *)
Definition point_in_polygon (x y : float) (polygon : list point) : option bool :=
  points_in_polygon [(x, y)] polygon !! 0.

(** ** gcoordinator/utils/contour.py *)

(** Lines 8-13.  Edge indices: 0 = bottom, 1 = right, 2 = top, 3 = left.
    The dictionary has the keys 0..15; no other key is ever looked up. *)
Definition _EDGE_TABLE (case : nat) : list (nat * nat) :=
  match case with
  | 0 => [] | 1 => [(3, 0)] | 2 => [(0, 1)] | 3 => [(3, 1)]
  | 4 => [(1, 2)] | 5 => [(3, 0); (1, 2)] | 6 => [(0, 2)] | 7 => [(3, 2)]
  | 8 => [(2, 3)] | 9 => [(2, 0)] | 10 => [(0, 1); (2, 3)] | 11 => [(2, 1)]
  | 12 => [(1, 3)] | 13 => [(1, 0)] | 14 => [(0, 3)] | 15 => []
  | _ => []
  end.

(** A 2D array: its shape [(ny, nx)] and its entries, row [i] (the y index)
    and column [j] (the x index). *)
Record ndarray2 := {
  shape0 : nat;
  shape1 : nat;
  item : nat → nat → float
}.

(** The array with the given rows. *)
Definition of_rows (rows : list (list float)) : ndarray2 :=
  {| shape0 := length rows;
     shape1 := length (hd [] rows);
     item i j := (rows !!! i) !!! j |}.

Abbreviation cell := (nat * nat)%type (only parsing).
Abbreviation segment := (point * point)%type (only parsing).

(** Line 58: the cells [(i, j)] in the order in which boolean-mask indexing
    enumerates them (row-major). *)
Definition cells (z : ndarray2) : list cell :=
  i ← seq 0 (shape0 z - 1); j ← seq 0 (shape1 z - 1); [(i, j)].

(** Lines 42-45, at cell [c]. *)
Definition z00 (z : ndarray2) (c : cell) : float := item z c.1 c.2.
Definition z01 (z : ndarray2) (c : cell) : float := item z c.1 (S c.2).
Definition z11 (z : ndarray2) (c : cell) : float := item z (S c.1) (S c.2).
Definition z10 (z : ndarray2) (c : cell) : float := item z (S c.1) c.2.

(** Line 48. *)
Definition valid (z : ndarray2) (c : cell) : bool :=
  negb (isnan (z00 z c) || isnan (z01 z c) || isnan (z11 z c) || isnan (z10 z c)).

(** Lines 51-55. *)
Definition above (v level : float) : nat := if (v >=? level)%F then 1 else 0.

Definition case_index (z : ndarray2) (level : float) (c : cell) : nat :=
  above (z00 z c) level + 2 * above (z01 z c) level
  + 4 * above (z11 z c) level + 8 * above (z10 z c) level.

(** Line 65. *)
Definition mask (z : ndarray2) (level : float) (case : nat) (c : cell) : bool :=
  (case_index z level c =? case) && valid z c.

(** Lines 89-111 for one selected cell.  The result is the point
    [(px, py)], together with the denominators of the divisions that were
    carried out: [np.where] receives both alternatives already evaluated, so
    [(level - va) / dv] is computed whatever [np.abs(dv) < 1e-10] says.
    The indices into [x] and [y] are in range once the shapes have been
    checked (line 33); the lookup [!!!] gives NaN outside the range. *)
Definition interp_edge (x y : list float) (z : ndarray2) (level : float)
    (c : cell) (edge_idx : nat) : point * list float :=
  let '(ci, cj) := c in
  let v0 := z00 z c in
  let v1 := z01 z c in
  let v2 := z11 z c in
  let v3 := z10 z c in
  let '(va, vb, (xa, xb), (ya, yb)) :=
    match edge_idx with
    | 0 => (v0, v1, (x !!! cj, x !!! (cj + 1)), (y !!! ci, y !!! ci))
    | 1 => (v1, v2, (x !!! (cj + 1), x !!! (cj + 1)), (y !!! ci, y !!! (ci + 1)))
    | 2 => (v2, v3, (x !!! (cj + 1), x !!! cj), (y !!! (ci + 1), y !!! (ci + 1)))
    | _ => (v3, v0, (x !!! cj, x !!! cj), (y !!! (ci + 1), y !!! ci))
    end in
  let dv := (vb - va)%F in
  let quotient := ((level - va) / dv)%F in
  let t := np_where (fabs dv <? lit 1e-10%Q)%F (lit 0.5%Q) quotient in
  let px := (xa + t * (xb - xa))%F in
  let py := (ya + t * (yb - ya))%F in
  ((px, py), [dv]).

(** Lines 65-119 for one [case]. *)
Definition case_segments (x y : list float) (z : ndarray2) (level : float)
    (case : nat) : list segment :=
  let selected := filter (λ c, mask z level case c = true) (cells z) in
  match selected with
  | [] => []
  | _ =>
      '(e1, e2) ← _EDGE_TABLE case;
      (λ c, ((interp_edge x y z level c e1).1, (interp_edge x y z level c e2).1))
        <$> selected
  end.

(** Lines 61-119: the list [all_segments] when the loop over the cases ends. *)
Definition all_segments (x y : list float) (z : ndarray2) (level : float)
    : list segment :=
  case ← seq 1 14; case_segments x y z level case.

(** The denominators of all divisions evaluated by the calls of
    [interp_edge] (lines 115-116) during the loop over the cases. *)
Definition all_divisors (x y : list float) (z : ndarray2) (level : float)
    : list float :=
  case ← seq 1 14;
  match filter (λ c, mask z level case c = true) (cells z) with
  | [] => []
  | selected =>
      '(e1, e2) ← _EDGE_TABLE case;
      (c ← selected; (interp_edge x y z level c e1).2)
      ++ (c ← selected; (interp_edge x y z level c e2).2)
  end.

(** *** Exceptions and results *)

Inductive exn :=
  | ShapeMismatch   (* the ValueError of line 34 *)
  | RoundNaN        (* the ValueError of [round] on a NaN *)
  | IndexError.

(** The result of a call: a value, an exception, or [OutOfFuel] when the
    bound on the iterations of a [while] loop was too small. *)
Inductive outcome (A : Type) :=
  | Ok (a : A)
  | Raise (e : exn)
  | OutOfFuel.
Arguments Ok {A} a.
Arguments Raise {A} e.
Arguments OutOfFuel {A}.

Global Instance outcome_ret : MRet outcome := λ A a, Ok a.
Global Instance outcome_bind : MBind outcome := λ A B f m,
  match m with
  | Ok a => f a
  | Raise e => Raise e
  | OutOfFuel => OutOfFuel
  end.

Global Instance outcome_fmap : FMap outcome := λ A B f m,
  match m with
  | Ok a => Ok (f a)
  | Raise e => Raise e
  | OutOfFuel => OutOfFuel
  end.

(** [l[i]] and [l[i] = v] for [0 <= i]; [l[-1]]. *)
Definition getitem {A} (l : list A) (i : nat) : outcome A :=
  match l !! i with
  | Some a => Ok a
  | None => Raise IndexError
  end.

Definition setitem {A} (l : list A) (i : nat) (v : A) : outcome (list A) :=
  if decide (i < length l) then Ok (<[i := v]> l) else Raise IndexError.

Definition getlast {A} (l : list A) : outcome A :=
  match list.last l with
  | Some a => Ok a
  | None => Raise IndexError
  end.

(** *** _connect_segments_fast *)

Abbreviation key := (Z * Z)%type (only parsing).

Definition default_tolerance : float := lit 1e-8%Q.

(** Lines 134-135. *)
Definition quantize (tolerance : float) (p : point) : outcome key :=
  match py_round (p.1 / tolerance)%F, py_round (p.2 / tolerance)%F with
  | Some a, Some b => Ok (a, b)
  | _, _ => Raise RoundNaN
  end.

(** [adjacency[q]] of a [defaultdict(list)], and [adjacency[q].append(v)]. *)
Definition adj_get (adjacency : gmap key (list (nat * nat))) (q : key)
    : list (nat * nat) :=
  default [] (adjacency !! q).

Definition adj_append (adjacency : gmap key (list (nat * nat))) (q : key)
    (v : nat * nat) : gmap key (list (nat * nat)) :=
  <[q := adj_get adjacency q ++ [v]]> adjacency.

(** Lines 141-145, from [seg_idx] on. *)
Fixpoint build_adjacency (tolerance : float) (segments : list segment)
    (seg_idx : nat) (adjacency : gmap key (list (nat * nat)))
    : outcome (gmap key (list (nat * nat))) :=
  match segments with
  | [] => Ok adjacency
  | (p0, p1) :: rest =>
      q0 ← quantize tolerance p0;
      q1 ← quantize tolerance p1;
      let adjacency := adj_append adjacency q0 (seg_idx, 0) in
      let adjacency := adj_append adjacency q1 (seg_idx, 1) in
      build_adjacency tolerance rest (S seg_idx) adjacency
  end.

(** Lines 169-171: the first entry of [adjacency[q]] whose segment is not
    used yet, if any. *)
Fixpoint find_unused (used : list bool) (entries : list (nat * nat))
    : outcome (option (nat * nat)) :=
  match entries with
  | [] => Ok None
  | (seg_idx, endpoint_idx) :: rest =>
      u ← getitem used seg_idx;
      if u : bool then find_unused used rest
      else Ok (Some (seg_idx, endpoint_idx))
  end.

Section stitch.
Context (tolerance : float) (segments : list segment)
        (adjacency : gmap key (list (nat * nat))).

(** Lines 161-190: one iteration of the [while True] loop.  [None] is the
    [break] of line 190. *)
Definition extend_once (direction : nat) (st : list bool * list point)
    : outcome (option (list bool * list point)) :=
  let '(used, path) := st in
  end_point ← (if direction =? 1 then getlast path else getitem path 0);
  q ← quantize tolerance end_point;
  found ← find_unused used (adj_get adjacency q);
  match found with
  | None => Ok None
  | Some (seg_idx, endpoint_idx) =>
      seg ← getitem segments seg_idx;
      used ← setitem used seg_idx true;
      let new_point := if endpoint_idx =? 0 then seg.2 else seg.1 in
      let path := if direction =? 1 then path ++ [new_point]
                  else new_point :: path in
      Ok (Some (used, path))
  end.

(** Lines 160-190: the [while True] loop, at most [fuel] iterations. *)
Fixpoint extend (fuel : nat) (direction : nat) (st : list bool * list point)
    : outcome (list bool * list point) :=
  match fuel with
  | 0 => OutOfFuel
  | S fuel =>
      r ← extend_once direction st;
      match r with
      | None => Ok st
      | Some st => extend fuel direction st
      end
  end.

(** Lines 151-192: the body of the loop over [start_idx]. *)
Definition start_path (fuel : nat) (st : list bool * list (list point))
    (start_idx : nat) : outcome (list bool * list (list point)) :=
  let '(used, paths) := st in
  u ← getitem used start_idx;
  if u : bool then Ok (used, paths)
  else
    used ← setitem used start_idx true;
    seg ← getitem segments start_idx;
    let path := [seg.1; seg.2] in
    st ← extend fuel 1 (used, path);
    st ← extend fuel 0 st;
    let '(used, path) := st in
    Ok (used, paths ++ [path]).

(** Lines 150-192. *)
Fixpoint start_paths (fuel : nat) (st : list bool * list (list point))
    (start_idxs : list nat) : outcome (list bool * list (list point)) :=
  match start_idxs with
  | [] => Ok st
  | start_idx :: rest =>
      st ← start_path fuel st start_idx;
      start_paths fuel st rest
  end.
End stitch.

(** Lines 130-194, returning the final [used] with the paths.  A [while]
    loop is given [S (len(segments))] iterations. *)
Definition connect_segments_state (segments : list segment) (tolerance : float)
    : outcome (list bool * list (list point)) :=
  adjacency ← build_adjacency tolerance segments 0 ∅;
  let used := replicate (length segments) false in
  start_paths tolerance segments adjacency (S (length segments)) (used, [])
    (seq 0 (length segments)).

Definition _connect_segments_fast (segments : list segment) (tolerance : float)
    : outcome (list (list point)) :=
  match segments with
  | [] => Ok []
  | _ => st ← connect_segments_state segments tolerance; Ok st.2
  end.

(** Lines 16-122. *)
Definition find_contours (x y : list float) (z : ndarray2) (level : float)
    : outcome (list (list point)) :=
  let ny := shape0 z in
  let nx := shape1 z in
  if negb (length x =? nx) || negb (length y =? ny) then Raise ShapeMismatch
  else if (ny <? 2) || (nx <? 2) then Ok []
  else _connect_segments_fast (all_segments x y z level) default_tolerance.

(** ** Definitions used to state the properties *)

(** The x-coordinate at which the line through an edge meets the horizontal
    line at height [py]. *)
Definition x_intersection (e : point * point) (py : float) : float :=
  let '((x1, y1), (x2, y2)) := e in
  (x1 + (py - y1) * (x2 - x1) / (y2 - y1))%F.

(** [(y1 > py) != (y2 > py)]. *)
Definition straddles (e : point * point) (py : float) : bool :=
  xorb (e.1.2 >? py)%F (e.2.2 >? py)%F.

(** An edge is crossed by the ray from [p] when it straddles [p]'s height
    and its x-intersection is strictly greater than [p]'s x. *)
Definition crosses (p : point) (e : point * point) : bool :=
  straddles e p.2 && (x_intersection e p.2 >? p.1)%F.

(** [y1 == y2]. *)
Definition horizontal (e : point * point) : bool := (e.1.2 ==? e.2.2)%F.

(** The four corners of a cell, numbered 0 = bottom-left, 1 = bottom-right,
    2 = top-right, 3 = top-left: their samples and their positions. *)
Definition corner_value (z : ndarray2) (c : cell) (k : nat) : float :=
  match k with
  | 0 => z00 z c
  | 1 => z01 z c
  | 2 => z11 z c
  | _ => z10 z c
  end.

Definition corner_point (x y : list float) (c : cell) (k : nat) : point :=
  match k with
  | 0 => (x !!! c.2, y !!! c.1)
  | 1 => (x !!! (c.2 + 1), y !!! c.1)
  | 2 => (x !!! (c.2 + 1), y !!! (c.1 + 1))
  | _ => (x !!! c.2, y !!! (c.1 + 1))
  end.

(** [t = (level - va) / (vb - va)], and 0.5 when [|vb - va| < 1e-10]. *)
Definition interpolation_parameter (level va vb : float) : float :=
  if (fabs (vb - va) <? lit 1e-10%Q)%F then lit 0.5%Q
  else ((level - va) / (vb - va))%F.

(** [pa + t * (pb - pa)], componentwise. *)
Definition crossing_point (level va vb : float) (pa pb : point) : point :=
  let t := interpolation_parameter level va vb in
  (pa.1 + t * (pb.1 - pa.1), pa.2 + t * (pb.2 - pa.2))%F.

(** Edge [e] of a cell runs from corner [e] to corner [e + 1] (mod 4). *)
Definition edge_crossing (x y : list float) (z : ndarray2) (level : float)
    (c : cell) (e : nat) : point :=
  crossing_point level (corner_value z c e) (corner_value z c (S e mod 4))
    (corner_point x y c e) (corner_point x y c (S e mod 4)).

(** The segments of one cell: none when a corner is NaN, else one for each
    edge pair that the table gives for the cell's case. *)
Definition cell_segments (x y : list float) (z : ndarray2) (level : float)
    (c : cell) : list segment :=
  if valid z c
  then (λ pr, (edge_crossing x y z level c pr.1, edge_crossing x y z level c pr.2))
         <$> _EDGE_TABLE (case_index z level c)
  else [].

(** Two segments are parallel when the cross product of their directions
    vanishes. *)
Definition segment_direction (s : segment) : float * float :=
  (s.2.1 - s.1.1, s.2.2 - s.1.2)%F.

Definition parallel (s1 s2 : segment) : Prop :=
  let d1 := segment_direction s1 in
  let d2 := segment_direction s2 in
  (d1.1 * d2.2 - d1.2 * d2.1)%F = lit 0%Q.

(** The segment of the cell [c] for the edge pair [pr] (lines 115-119). *)
Definition seg_of (x y : list float) (z : ndarray2) (level : float)
    (c : cell) (pr : nat * nat) : segment :=
  ((interp_edge x y z level c pr.1).1, (interp_edge x y z level c pr.2).1).

(** The segments of one case over a list of cells. *)
Definition segs_on (x y : list float) (z : ndarray2) (level : float)
    (cs : list cell) (case : nat) : list segment :=
  pr ← _EDGE_TABLE case;
  (λ c, seg_of x y z level c pr) <$> filter (λ c, mask z level case c = true) cs.

(** The pairs of consecutive points of a path. *)
Definition adjacent_pairs (path : list point) : list (point * point) :=
  zip path (tail path).

(** Two points collide under the quantization. *)
Definition same_key (tolerance : float) (p p' : point) : Prop :=
  quantize tolerance p = quantize tolerance p'.

(** A pair of consecutive path points stands for the segment [s]: one of its
    points is an endpoint of [s], the other one collides with the other
    endpoint of [s]. *)
Definition joins (tolerance : float) (pr : point * point) (s : segment) : Prop :=
  (same_key tolerance pr.1 s.1 ∧ pr.2 = s.2)
  ∨ (same_key tolerance pr.1 s.2 ∧ pr.2 = s.1)
  ∨ (pr.1 = s.2 ∧ same_key tolerance pr.2 s.1)
  ∨ (pr.1 = s.1 ∧ same_key tolerance pr.2 s.2).

(** The segment with index [i] is the one that the pair [pr] stands for. *)
Definition owner_of (tolerance : float) (segments : list segment)
    (pr : point * point) (i : nat) : Prop :=
  ∃ s, segments !! i = Some s ∧ joins tolerance pr s.

(** A call that returns. *)
Definition is_ok {A} (o : outcome A) : Prop := ∃ a, o = Ok a.

(** Both endpoints of a segment can be quantized: [round] does not raise. *)
Definition quantizable (tolerance : float) (s : segment) : Prop :=
  is_ok (quantize tolerance s.1) ∧ is_ok (quantize tolerance s.2).

(** The number of segments not used yet. *)
Definition unused (used : list bool) : nat :=
  length (filter (λ u, u = false) used).

(** The number of points that the extension steps added to the paths: a
    path starts with two points and every step adds one. *)
Definition extension_steps (paths : list (list point)) : nat :=
  sum_list ((λ path, length path - 2) <$> paths).

Global Instance exn_eq_dec : EqDecision exn.
Proof. solve_decision. Defined.
Global Instance outcome_eq_dec `{EqDecision A} : EqDecision (outcome A).
Proof. solve_decision. Defined.

(** What [adjacency[q]] holds for the segments numbered from [k] on. *)
Fixpoint entries (tolerance : float) (segments : list segment) (k : nat)
    (q : key) : list (nat * nat) :=
  match segments with
  | [] => []
  | (p0, p1) :: rest =>
      (if decide (quantize tolerance p0 = Ok q) then [(k, 0)] else [])
      ++ (if decide (quantize tolerance p1 = Ok q) then [(k, 1)] else [])
      ++ entries tolerance rest (S k) q
  end.

(** The bookkeeping of the stitching loop: the pairs of consecutive points
    built so far stand, one for one, for the segments marked in [used]. *)
Definition covers (tolerance : float) (segments : list segment)
    (used : list bool) (pairs : list (point * point)) : Prop :=
  length used = length segments
  ∧ ∃ owned marked,
      pairs ≡ₚ owned
      ∧ Forall2 (owner_of tolerance segments) owned marked
      ∧ NoDup marked
      ∧ ∀ i, used !! i = Some true ↔ i ∈ marked.

(** [p] is an endpoint of one of the segments. *)
Definition endpoint (segments : list segment) (p : point) : Prop :=
  ∃ s, s ∈ segments ∧ (p = s.1 ∨ p = s.2).

(** The invariant of the extension loops: [done] are the pairs of the paths
    already finished, [path] is the path under construction. *)
Definition path_inv (tolerance : float) (segments : list segment)
    (used : list bool) (done : list (point * point)) (path : list point) : Prop :=
  covers tolerance segments used (done ++ adjacent_pairs path)
  ∧ path ≠ []
  ∧ Forall (endpoint segments) path.

(** [used] only grows. *)
Definition grows (used used' : list bool) : Prop :=
  ∀ i, used !! i = Some true → used' !! i = Some true.

(** A path has at least two points, each an endpoint of a segment. *)
Definition well_formed_path (segments : list segment) (path : list point) : Prop :=
  2 ≤ length path ∧ Forall (endpoint segments) path.

(** Numbers other than NaN. *)
Definition finite (a : float) : Prop := isnan a = false.

Definition finite_point (p : point) : Prop := finite p.1 ∧ finite p.2.

(** A map on points, applied to a segment and to the state of the stitching
    loops. *)
Definition map_segment (f : point → point) (s : segment) : segment :=
  (f s.1, f s.2).

Definition map_path_state (f : point → point) (st : list bool * list point)
    : list bool * list point :=
  (st.1, f <$> st.2).

Definition map_paths_state (f : point → point)
    (st : list bool * list (list point)) : list bool * list (list point) :=
  (st.1, fmap (M:=list) f <$> st.2).

(** ** Concrete inputs *)

(** The unit square and the two query points of the docstring of
    [points_in_polygon]. *)
Definition unit_square : list point :=
  [(lit 0, lit 0); (lit 1, lit 0); (lit 1, lit 1); (lit 0, lit 1)]%Q.
Definition two_points : list point := [(lit 0.5, lit 0.5); (lit 2, lit 2)]%Q.
Definition two_vertices : list point := [(lit 0, lit 0); (lit 1, lit 1)]%Q.

(** One grid cell over the unit square. *)
Definition unit_x : list float := [lit 0; lit 1]%Q.
Definition unit_y : list float := [lit 0; lit 1]%Q.

(** A saddle: samples 1, -1 on the bottom row and -3, 1 on the top row. *)
Definition saddle_grid : ndarray2 :=
  of_rows [[lit 1; lit (-1)]; [lit (-3); lit 1]]%Q.
Definition saddle_paths : list (list point) :=
  [[(lit 0, lit 0.25); (lit 0.5, lit 0)];
   [(lit 1, lit 0.5); (lit 0.75, lit 1)]]%Q.

(** A cell whose bottom-left sample is NaN. *)
Definition nan_grid : ndarray2 :=
  of_rows [[NaN; lit 1]; [lit 1; lit 1]]%Q.

(** A cell whose bottom samples differ by 1e-11. *)
Definition flat_grid : ndarray2 :=
  of_rows [[lit 0; lit (-1e-11)]; [lit (-1); lit (-1)]]%Q.

(** Two cells side by side, with a corner cut off at each end of the bottom
    row. *)
Definition three_x : list float := [lit 0; lit 1; lit 2]%Q.
Definition two_corner_grid : ndarray2 :=
  of_rows [[lit 1; lit 0; lit 1]; [lit 0; lit 0; lit 0]]%Q.

(** Scaling by a constant. *)
Definition scale (c : float) (p : point) : point := (c * p.1, c * p.2)%F.
Definition scale_segment (c : float) : segment → segment :=
  map_segment (scale c).

(** A polygon whose last vertex is within [1e-9] of the first one. *)
Definition nearly_closed : list point :=
  [(lit 0, lit 0); (lit 1, lit 0); (lit 1, lit 1); (lit 0, lit 1);
   (lit 0, lit 1e-9)]%Q.

(** A point just left of the polygon [nearly_closed], between the heights
    of its last and first vertex. *)
Definition low_left : list point := [(lit (-1), lit 5e-10)]%Q.

(** The paths of [two_corner_grid] at level 0.5, over the coordinates
    [three_x], [unit_y] and over these coordinates times [1e-9]. *)
Definition two_corner_paths : list (list point) :=
  [[(lit 0, lit 0.5); (lit 0.5, lit 0)];
   [(lit 1.5, lit 0); (lit 2, lit 0.5)]]%Q.
Definition two_corner_paths_tiny : list (list point) :=
  [[(lit 0, lit 5e-10); (lit 5e-10, lit 0); (lit 2e-9, lit 5e-10)]]%Q.

(** Equality of concrete values is decided by computation. *)
Ltac compute_eq := apply (bool_decide_unpack _); vm_compute; exact I.

(** Two segments that share an endpoint and one apart from them. *)
Definition chain_segments : list segment :=
  [((lit 0, lit 0), (lit 1, lit 0));
   ((lit 1, lit 1), (lit 1, lit 0));
   ((lit 5, lit 5), (lit 6, lit 6))]%Q.
Definition chain_paths : list (list point) :=
  [[(lit 0, lit 0); (lit 1, lit 0); (lit 1, lit 1)];
   [(lit 5, lit 5); (lit 6, lit 6)]]%Q.

(** ** Further definitions *)

(** An edge taken in the other direction. *)
Definition swap_edge (e : point * point) : point * point := (e.2, e.1).

(** The samples of [z] with a constant added. *)
Definition shift_samples (z : ndarray2) (k : float) : ndarray2 :=
  {| shape0 := shape0 z; shape1 := shape1 z; item i j := (item z i j + k)%F |}.

(** The points of a list of segments, shifted by [(dx, dy)]. *)
Definition translate (dx dy : float) (p : point) : point := (p.1 + dx, p.2 + dy)%F.

(** The path holds the endpoints of the segment with index [i] as consecutive
    points, in the order of the segment. *)
Definition starts_with (segments : list segment) (path : list point) (i : nat)
    : Prop :=
  ∃ s, segments !! i = Some s ∧ (s.1, s.2) ∈ adjacent_pairs path.

(** [e] is the first or the last point of the path. *)
Definition is_end (path : list point) (e : point) : Prop :=
  path !! 0 = Some e ∨ list.last path = Some e.

(** No point of a later path collides with an end of an earlier path. *)
Definition separated (tolerance : float) (paths : list (list point)) : Prop :=
  ∀ i j pi pj e p,
    paths !! i = Some pi → paths !! j = Some pj → i < j →
    is_end pi e → p ∈ pj → ¬ same_key tolerance e p.

(** Every segment with an endpoint that collides with [e] is used. *)
Definition sealed (tolerance : float) (segments : list segment)
    (used : list bool) (e : point) : Prop :=
  ∀ i s, segments !! i = Some s →
         same_key tolerance e s.1 ∨ same_key tolerance e s.2 →
         used !! i = Some true.

(** [p] is an endpoint of a segment that [used] does not mark. *)
Definition fresh (segments : list segment) (used : list bool) (p : point) : Prop :=
  ∃ i s, segments !! i = Some s ∧ (p = s.1 ∨ p = s.2) ∧ used !! i = Some false.

(** The invariant of the loop over [start_idx] for the ends of the paths. *)
Definition chains (tolerance : float) (segments : list segment)
    (used : list bool) (paths : list (list point)) : Prop :=
  length used = length segments
  ∧ (∀ path e, path ∈ paths → is_end path e → sealed tolerance segments used e)
  ∧ separated tolerance paths.

(** * Properties *)

(** ** Numbers *)

Lemma Qcminus_eq_0 (a b : Qc) : (a - b)%Qc = Q2Qc 0%Q ↔ a = b.
Proof.
  split; intros H.
  - rewrite <-(Qcplus_0_l b). change (Q2Qc 0) with (Q2Qc 0%Q). rewrite <-H. ring.
  - subst. ring.
Qed.

Lemma odd_mod2 (n : nat) : (n mod 2 =? 1) = Nat.odd n.
Proof. rewrite <-Nat.bit0_mod, Nat.bit0_odd. by destruct (Nat.odd n). Qed.

(** [round] takes a tie to the even neighbour, as Python does:
    [round(0.5) = 0], [round(1.5) = 2], [round(2.5) = 2], [round(-0.5) = 0],
    [round(-1.5) = -2]. *)
Example round_half_even_ties :
  round_half_even <$> (Q2Qc <$> [0.5; 1.5; 2.5; -0.5; -1.5; 0.05; 0.2]%Q)
  = [0; 2; 2; 0; -2; 0; 0]%Z.
Proof. by vm_compute. Qed.

(** ** points_in_polygon *)

(** The example of the docstring. *)
Example points_in_polygon_unit_square :
  points_in_polygon two_points unit_square = [true; false].
Proof. compute_eq. Qed.

(** The masked test of the code and the crossing rule agree on every edge:
    where the divisor was replaced by 1 the edge is horizontal, and a
    horizontal edge does not straddle any height. *)
Lemma crossing_crosses (p : point) (e : point * point) :
  crossing p e = crosses p e.
Proof.
  destruct p as [px py], e as [[x1 y1] [x2 y2]].
  unfold crossing, crosses, straddles, x_intersection, np_where; simpl.
  destruct y1 as [|y1], y2 as [|y2]; simpl.
  1-3: by destruct py, x1, x2, px; simpl; rewrite ?andb_false_r.
  unfold fne, feq, fgt; simpl.
  destruct (decide (y1 = y2)) as [->|Hne].
  - rewrite (bool_decide_eq_true_2 (y2 = y2)) by done. simpl.
    by rewrite xorb_nilpotent, andb_false_r.
  - rewrite (bool_decide_eq_false_2 (y1 = y2)) by done.
    rewrite bool_decide_eq_false_2; [by rewrite andb_true_r|].
    rewrite Qcminus_eq_0. congruence.
Qed.

Lemma horizontal_no_crossing (p : point) (e : point * point) :
  horizontal e = true → crossing p e = false.
Proof.
  destruct p as [px py], e as [[x1 y1] [x2 y2]].
  unfold horizontal, crossing, fne; simpl. intros ->.
  by rewrite andb_false_r.
Qed.



(** C8: a polygon with fewer than 3 vertices classifies every point of the
    batch as outside; the result has one entry per point, none for an empty
    batch. *)
Theorem degenerate_polygon_all_false (points polygon : list point) :
  length polygon < 3 →
  points_in_polygon points polygon = replicate (length points) false
  ∧ length (points_in_polygon points polygon) = length points
  ∧ points_in_polygon [] polygon = [].
Proof.
  intros Hlen. unfold points_in_polygon.
  destruct (Nat.ltb_spec (length polygon) 3) as [_|?]; [|lia].
  by rewrite length_replicate.
Qed.

Lemma degenerate_polygon_all_false_witness :
  points_in_polygon two_points two_vertices = replicate (length two_points) false.
Proof.
  apply (degenerate_polygon_all_false two_points two_vertices). simpl; lia.
Defined.

(** ** Marching squares: case index, edge table, interpolation *)

Lemma above_le_1 (v level : float) : above v level ≤ 1.
Proof. unfold above. destruct (v >=? level)%F; lia. Qed.

Lemma case_index_le_15 (z : ndarray2) (level : float) (c : cell) :
  case_index z level c ≤ 15.
Proof.
  unfold case_index.
  pose proof (above_le_1 (z00 z c) level). pose proof (above_le_1 (z01 z c) level).
  pose proof (above_le_1 (z11 z c) level). pose proof (above_le_1 (z10 z c) level).
  lia.
Qed.

Lemma case_index_testbit (z : ndarray2) (level : float) (c : cell) (k : nat) :
  k < 4 →
  Nat.testbit (case_index z level c) k = (corner_value z c k >=? level)%F.
Proof.
  intros Hk. unfold case_index, above.
  destruct k as [|[|[|[|?]]]]; [| | |  |lia]; simpl corner_value;
    destruct (z00 z c >=? level)%F, (z01 z c >=? level)%F,
             (z11 z c >=? level)%F, (z10 z c >=? level)%F; reflexivity.
Qed.

(** What [interp_edge] returns is the crossing point of the edge. *)
Lemma interp_edge_point (x y : list float) (z : ndarray2) (level : float)
    (c : cell) (e : nat) :
  e < 4 → (interp_edge x y z level c e).1 = edge_crossing x y z level c e.
Proof.
  intros He. destruct c as [ci cj].
  destruct e as [|[|[|[|?]]]]; [| | |  |lia]; reflexivity.
Qed.

Lemma edge_table_lt_4 (case : nat) (pr : nat * nat) :
  pr ∈ _EDGE_TABLE case → pr.1 < 4 ∧ pr.2 < 4.
Proof.
  do 16 (destruct case as [|case];
    [simpl; intros H; repeat (apply elem_of_cons in H as [->|H]; [simpl; lia|]);
     by apply elem_of_nil in H|]).
  simpl. by intros H%elem_of_nil.
Qed.

Lemma case_segments_segs_on x y z level case :
  case_segments x y z level case = segs_on x y z level (cells z) case.
Proof.
  unfold case_segments, segs_on.
  destruct (filter _ (cells z)) as [|c0 sel] eqn:Hsel.
  - induction (_EDGE_TABLE case) as [|pr t IH]; [done|].
    by rewrite bind_cons, <-IH.
  - apply list_bind_ext; [|done]. by intros [e1 e2].
Qed.

Lemma bind_app_Permutation {A B} (f g : A → list B) (l : list A) :
  l ≫= (λ a, f a ++ g a) ≡ₚ (l ≫= f) ++ (l ≫= g).
Proof.
  induction l as [|a l IH]; [done|].
  rewrite !bind_cons, IH. solve_Permutation.
Qed.

Lemma segs_on_cons x y z level c cs case :
  segs_on x y z level (c :: cs) case
  ≡ₚ (if mask z level case c then seg_of x y z level c <$> _EDGE_TABLE case else [])
     ++ segs_on x y z level cs case.
Proof.
  unfold segs_on. rewrite filter_cons.
  destruct (mask z level case c) eqn:Hm.
  - rewrite decide_True by done.
    induction (_EDGE_TABLE case) as [|pr t IH]; [done|].
    rewrite !bind_cons, IH, !fmap_cons. solve_Permutation.
  - by rewrite decide_False by done.
Qed.

Lemma cases_of_cell {B} (n : nat) (v : bool) (F : nat → list B) :
  n ≤ 15 → F 0 = [] → F 15 = [] →
  seq 1 14 ≫= (λ case, if (n =? case) && v then F case else [])
  = if v then F n else [].
Proof.
  intros Hn H0 H15.
  destruct v.
  - do 16 (destruct n as [|n]; [simpl; by rewrite ?app_nil_r, ?H0, ?H15|]). lia.
  - induction (seq 1 14) as [|k l IH]; [done|].
    by rewrite bind_cons, IH, andb_false_r.
Qed.

Lemma bind_Permutation_ext {A B} (f g : A → list B) (l : list A) :
  (∀ a, f a ≡ₚ g a) → l ≫= f ≡ₚ l ≫= g.
Proof.
  intros Hfg. induction l as [|a l IH]; [done|].
  by rewrite !bind_cons, IH, Hfg.
Qed.

Lemma bind_const_nil {A B} (l : list A) : l ≫= (λ _, @nil B) = [].
Proof. induction l as [|a l IH]; [done|]. by rewrite bind_cons, IH. Qed.

Lemma segs_on_nil x y z level case : segs_on x y z level [] case = [].
Proof. unfold segs_on. rewrite filter_nil. apply bind_const_nil. Qed.

Lemma seg_of_table x y z level c :
  seg_of x y z level c <$> _EDGE_TABLE (case_index z level c)
  = (λ pr, (edge_crossing x y z level c pr.1, edge_crossing x y z level c pr.2))
      <$> _EDGE_TABLE (case_index z level c).
Proof.
  apply list_fmap_ext. intros i pr Hpr.
  apply list_elem_of_lookup_2, edge_table_lt_4 in Hpr as [??].
  unfold seg_of. by rewrite !interp_edge_point.
Qed.

(** The list collected by the loop over the cases holds, up to order, the
    segments of every cell. *)
Lemma all_segments_by_cell (x y : list float) (z : ndarray2) (level : float) :
  all_segments x y z level ≡ₚ cells z ≫= cell_segments x y z level.
Proof.
  unfold all_segments.
  rewrite (list_bind_ext _ (λ case, segs_on x y z level (cells z) case) _ (seq 1 14))
    by (done || apply case_segments_segs_on).
  induction (cells z) as [|c cs IH].
  - rewrite (list_bind_ext _ (λ _, []) _ (seq 1 14)) by (done || apply segs_on_nil).
    by rewrite bind_const_nil.
  - rewrite bind_cons, <-IH.
    rewrite (bind_Permutation_ext _ _ _ (λ case, segs_on_cons x y z level c cs case)).
    rewrite bind_app_Permutation. apply Permutation_app_tail, reflexive_eq.
    unfold mask.
    rewrite (cases_of_cell (case_index z level c) (valid z c)
               (λ case, seg_of x y z level c <$> _EDGE_TABLE case))
      by (apply case_index_le_15 || done).
    unfold cell_segments. by rewrite seg_of_table.
Qed.

(** ** _connect_segments_fast *)

Lemma bind_Ok {A B} (m : outcome A) (f : A → outcome B) (b : B) :
  m ≫= f = Ok b ↔ ∃ a, m = Ok a ∧ f a = Ok b.
Proof.
  destruct m; simpl; split; try naive_solver.
Qed.

Lemma getitem_Ok {A} (l : list A) (i : nat) (a : A) :
  getitem l i = Ok a ↔ l !! i = Some a.
Proof. unfold getitem. destruct (l !! i); naive_solver. Qed.

Lemma setitem_Ok {A} (l l' : list A) (i : nat) (v : A) :
  setitem l i v = Ok l' ↔ i < length l ∧ l' = <[i := v]> l.
Proof. unfold setitem. case_decide; naive_solver. Qed.

(** *** The adjacency index *)

Lemma adj_get_append adjacency q v q' :
  adj_get (adj_append adjacency q v) q'
  = adj_get adjacency q' ++ (if decide (q = q') then [v] else []).
Proof.
  unfold adj_append, adj_get at 1. case_decide as Hq.
  - subst. by rewrite lookup_insert_eq.
  - rewrite lookup_insert_ne by done. by rewrite app_nil_r.
Qed.

Lemma build_adjacency_get tolerance segments k adjacency0 adjacency :
  build_adjacency tolerance segments k adjacency0 = Ok adjacency →
  ∀ q, adj_get adjacency q = adj_get adjacency0 q ++ entries tolerance segments k q.
Proof.
  revert k adjacency0. induction segments as [|[p0 p1] rest IH]; simpl.
  - intros k a0 [= <-] q. by rewrite app_nil_r.
  - intros k a0 (q0 & Hq0 & (q1 & Hq1 & Hb)%bind_Ok)%bind_Ok q.
    rewrite (IH _ _ Hb), !adj_get_append, Hq0, Hq1, <-!app_assoc.
    do 2 f_equal; [|f_equal]; repeat case_decide; naive_solver.
Qed.

Lemma build_adjacency_ok tolerance segments k adjacency0 :
  Forall (quantizable tolerance) segments →
  is_ok (build_adjacency tolerance segments k adjacency0).
Proof.
  intros Hq. revert k adjacency0.
  induction Hq as [|[p0 p1] rest [[q0 Hq0] [q1 Hq1]] _ IH]; intros k a0; simpl.
  - by eexists.
  - simpl in *. rewrite Hq0, Hq1. simpl. apply IH.
Qed.

Lemma build_adjacency_quantizable tolerance segments k adjacency0 adjacency :
  build_adjacency tolerance segments k adjacency0 = Ok adjacency →
  Forall (quantizable tolerance) segments.
Proof.
  revert k adjacency0. induction segments as [|[p0 p1] rest IH]; simpl; [done|].
  intros k a0 (q0 & Hq0 & (q1 & Hq1 & Hb)%bind_Ok)%bind_Ok.
  constructor; [split; by eexists|by eapply IH].
Qed.

Lemma build_adjacency_no_timeout tolerance segments k adjacency0 :
  build_adjacency tolerance segments k adjacency0 ≠ OutOfFuel.
Proof.
  revert k adjacency0. induction segments as [|[p0 p1] rest IH]; simpl; [done|].
  intros k a0. assert (∀ p, quantize tolerance p ≠ OutOfFuel) as Hq.
  { intros p. unfold quantize. by repeat case_match. }
  destruct (quantize tolerance p0) eqn:E0; simpl; [|done|by apply Hq in E0].
  destruct (quantize tolerance p1) eqn:E1; simpl; [|done|by apply Hq in E1].
  apply IH.
Qed.

Lemma entries_elem tolerance segments k q si ei :
  (si, ei) ∈ entries tolerance segments k q →
  ∃ s, k ≤ si ∧ segments !! (si - k) = Some s
       ∧ ((ei = 0 ∧ quantize tolerance s.1 = Ok q)
          ∨ (ei = 1 ∧ quantize tolerance s.2 = Ok q)).
Proof.
  revert k. induction segments as [|[p0 p1] rest IH]; simpl; intros k.
  - by intros ?%elem_of_nil.
  - rewrite !elem_of_app. intros [H|[H|H]].
    + case_decide; [|by apply elem_of_nil in H].
      apply list_elem_of_singleton in H as [= -> ->]. exists (p0, p1).
      rewrite Nat.sub_diag. naive_solver.
    + case_decide; [|by apply elem_of_nil in H].
      apply list_elem_of_singleton in H as [= -> ->]. exists (p0, p1).
      rewrite Nat.sub_diag. naive_solver.
    + apply IH in H as (s & Hk & Hs & Hq). exists s. split; [lia|]. split; [|done].
      replace (si - k) with (S (si - S k)) by lia. done.
Qed.

(** *** One iteration of the extension loop *)

Lemma find_unused_Some used es si ei :
  find_unused used es = Ok (Some (si, ei)) →
  (si, ei) ∈ es ∧ used !! si = Some false.
Proof.
  induction es as [|[sj ej] es IH]; simpl; [done|].
  intros (u & Hu%getitem_Ok & H)%bind_Ok. destruct u.
  - destruct (IH H). split; [by right|done].
  - injection H as -> ->. split; [by left|done].
Qed.

Lemma find_unused_ok used es :
  (∀ si ei, (si, ei) ∈ es → si < length used) →
  is_ok (find_unused used es).
Proof.
  induction es as [|[sj ej] es IH]; simpl; intros Hes; [by eexists|].
  destruct (lookup_lt_is_Some_2 used sj) as [u Hu]; [apply (Hes sj ej); by left|].
  unfold getitem. rewrite Hu. simpl. destruct u; [|by eexists].
  apply IH. intros ?? ?. eapply Hes. by right.
Qed.

Lemma unused_mark used i :
  used !! i = Some false → S (unused (<[i := true]> used)) = unused used.
Proof.
  unfold unused. revert i. induction used as [|u used IH]; intros [|i] Hi; try done.
  - injection Hi as ->. change (<[0:=true]> (false :: used)) with (true :: used).
    by rewrite filter_cons_False, filter_cons_True by done.
  - change (<[S i:=true]> (u :: used)) with (u :: <[i:=true]> used).
    rewrite !filter_cons. case_decide; simpl; rewrite <-(IH i); done.
Qed.

Lemma unused_le used : unused used ≤ length used.
Proof. apply length_filter. Qed.

Lemma grows_mark used i : grows used (<[i := true]> used).
Proof.
  intros j Hj. destruct (decide (i = j)) as [->|?].
  - rewrite list_lookup_insert_eq; [done|]. by eapply lookup_lt_Some.
  - by rewrite list_lookup_insert_ne.
Qed.

Section extension.
Context (tolerance : float) (segments : list segment)
        (adjacency : gmap key (list (nat * nat))).

(** What a successful iteration did: it took the first entry of
    [adjacency[q]] whose segment was unused, marked that segment and
    added its other endpoint to the path. *)
Lemma extend_once_Some direction used path used' path' :
  extend_once tolerance segments adjacency direction (used, path)
    = Ok (Some (used', path')) →
  ∃ end_point q si ei seg,
    (if direction =? 1 then list.last path else path !! 0) = Some end_point
    ∧ quantize tolerance end_point = Ok q
    ∧ (si, ei) ∈ adj_get adjacency q
    ∧ used !! si = Some false
    ∧ segments !! si = Some seg
    ∧ used' = <[si := true]> used
    ∧ path' = (let new_point := if ei =? 0 then seg.2 else seg.1 in
               if direction =? 1 then path ++ [new_point] else new_point :: path).
Proof.
  unfold extend_once.
  intros (end_point & He & (q & Hq & (found & Hf & H)%bind_Ok)%bind_Ok)%bind_Ok.
  destruct found as [[si ei]|]; [|done].
  apply bind_Ok in H as (seg & Hseg%getitem_Ok & (u' & [? ->]%setitem_Ok & H')%bind_Ok).
  injection H' as <- <-.
  apply find_unused_Some in Hf as [Hin Hu].
  exists end_point, q, si, ei, seg. repeat split; try done.
  destruct (direction =? 1).
  - unfold getlast in He. by destruct (list.last path); simplify_eq.
  - by apply getitem_Ok.
Qed.

Hypothesis Hadj : ∀ q, adj_get adjacency q = entries tolerance segments 0 q.
Hypothesis Hquant : Forall (quantizable tolerance) segments.

Lemma adjacency_sound q si ei :
  (si, ei) ∈ adj_get adjacency q →
  ∃ s, segments !! si = Some s
       ∧ ((ei = 0 ∧ quantize tolerance s.1 = Ok q)
          ∨ (ei = 1 ∧ quantize tolerance s.2 = Ok q)).
Proof.
  rewrite Hadj. intros (s & _ & Hs & H)%entries_elem.
  rewrite Nat.sub_0_r in Hs. eauto.
Qed.

Lemma endpoint_quantizable p :
  endpoint segments p → is_ok (quantize tolerance p).
Proof.
  intros (s & Hs & Hp). rewrite Forall_forall in Hquant.
  destruct (Hquant s Hs). by destruct Hp as [-> | ->].
Qed.

(** An iteration raises nothing. *)
Lemma extend_once_ok direction used path :
  length used = length segments → path ≠ [] → Forall (endpoint segments) path →
  is_ok (extend_once tolerance segments adjacency direction (used, path)).
Proof.
  intros Hlen Hne Hpath. unfold extend_once.
  assert (∃ end_point, (if direction =? 1 then getlast path else getitem path 0)
                       = Ok end_point ∧ endpoint segments end_point)
    as (end_point & -> & Hend).
  { destruct (direction =? 1).
    - unfold getlast. destruct (list.last path) as [e|] eqn:He.
      + exists e. split; [done|]. rewrite Forall_forall in Hpath.
        apply Hpath. by apply last_Some_elem_of.
      + by apply last_None in He.
    - destruct path as [|e path]; [done|]. exists e. split; [done|].
      by inversion Hpath. }
  simpl. destruct (endpoint_quantizable _ Hend) as [q ->]. simpl.
  destruct (find_unused_ok used (adj_get adjacency q)) as [found Hf].
  { intros si ei (s & Hs & _)%adjacency_sound. rewrite Hlen.
    by eapply lookup_lt_Some. }
  rewrite Hf. simpl. destruct found as [[si ei]|]; [|by eexists].
  apply find_unused_Some in Hf as [(s & Hs & _)%adjacency_sound Hu].
  rewrite (proj2 (getitem_Ok _ _ _) Hs). simpl.
  unfold setitem. rewrite decide_True by (by eapply lookup_lt_Some). by eexists.
Qed.
End extension.

(** *** The bookkeeping invariant *)

Lemma adjacent_pairs_cons new e path :
  adjacent_pairs (new :: e :: path) = (new, e) :: adjacent_pairs (e :: path).
Proof. done. Qed.

Lemma adjacent_pairs_snoc path e new :
  list.last path = Some e →
  adjacent_pairs (path ++ [new]) = adjacent_pairs path ++ [(e, new)].
Proof.
  induction path as [|a [|b path] IH]; [done|by intros [= ->]|].
  intros He. change ((a :: b :: path) ++ [new]) with (a :: b :: (path ++ [new])).
  rewrite !adjacent_pairs_cons. simpl. f_equal. by apply IH.
Qed.

Lemma length_adjacent_pairs path : length (adjacent_pairs path) = length path - 1.
Proof.
  unfold adjacent_pairs. rewrite length_zip, List.length_tl. lia.
Qed.

Lemma Forall2_Permutation_l {A B} (R : A → B → Prop) l l' k :
  l ≡ₚ l' → Forall2 R l k → ∃ k', k ≡ₚ k' ∧ Forall2 R l' k'.
Proof.
  intros Hl. revert k. induction Hl as [|a l l' _ IH|a b l|l l' l'' _ IH1 _ IH2]; intros k Hk.
  - exists k. by split.
  - apply Forall2_cons_inv_l in Hk as (b & k0 & Hab & Hk0 & ->).
    destruct (IH _ Hk0) as (k' & ? & ?). exists (b :: k'). split; [by constructor|by constructor].
  - apply Forall2_cons_inv_l in Hk as (b' & k0 & Hab & Hk0 & ->).
    apply Forall2_cons_inv_l in Hk0 as (a' & k1 & Hab' & Hk1 & ->).
    exists (a' :: b' :: k1). split; [apply Permutation_swap|by repeat constructor].
  - destruct (IH1 _ Hk) as (k1 & ? & Hk1). destruct (IH2 _ Hk1) as (k2 & ? & ?).
    exists k2. split; [by etrans|done].
Qed.

Section bookkeeping.
Context (tolerance : float) (segments : list segment).

Lemma covers_Permutation used pairs pairs' :
  pairs ≡ₚ pairs' → covers tolerance segments used pairs →
  covers tolerance segments used pairs'.
Proof.
  intros Hp (Hlen & owned & marked & Ho & ?). split; [done|].
  exists owned, marked. split; [by rewrite <-Hp|done].
Qed.

Lemma covers_mark used pairs pr i :
  covers tolerance segments used pairs →
  used !! i = Some false →
  owner_of tolerance segments pr i →
  covers tolerance segments (<[i := true]> used) (pr :: pairs).
Proof.
  intros (Hlen & owned & marked & Ho & HF & Hnd & Hiff) Hi Hown. split.
  { by rewrite length_insert. }
  exists (pr :: owned), (i :: marked). split; [by constructor|].
  split; [by constructor|]. split.
  - constructor; [|done]. rewrite <-Hiff. congruence.
  - intros j. rewrite elem_of_cons, <-Hiff.
    destruct (decide (i = j)) as [->|Hne].
    + rewrite list_lookup_insert_eq by (by eapply lookup_lt_Some). naive_solver.
    + rewrite list_lookup_insert_ne by done. naive_solver.
Qed.

Lemma covers_start : covers tolerance segments (replicate (length segments) false) [].
Proof.
  split; [by rewrite length_replicate|]. exists [], [].
  split; [done|]. split; [constructor|]. split; [constructor|].
  intros i. split; [|by intros ?%elem_of_nil].
  by intros [??]%lookup_replicate.
Qed.

(** When every segment is marked, the owners are all the indices. *)
Lemma covers_all pairs :
  covers tolerance segments (replicate (length segments) true) pairs →
  ∃ owner, owner ≡ₚ seq 0 (length segments)
           ∧ Forall2 (owner_of tolerance segments) pairs owner.
Proof.
  intros (_ & owned & marked & Ho & HF & Hnd & Hiff).
  destruct (Forall2_Permutation_l _ _ _ _ (symmetry Ho) HF) as (owner & Hperm & HF').
  exists owner. split; [|done]. rewrite <-Hperm.
  apply NoDup_Permutation; [done|apply NoDup_seq|].
  intros i. rewrite <-Hiff, elem_of_seq, lookup_replicate. naive_solver lia.
Qed.
End bookkeeping.

(** *** The loops *)

Section loops.
Context (tolerance : float) (segments : list segment)
        (adjacency : gmap key (list (nat * nat))).
Hypothesis Hadj : ∀ q, adj_get adjacency q = entries tolerance segments 0 q.
Hypothesis Hquant : Forall (quantizable tolerance) segments.

Lemma segment_endpoints i s :
  segments !! i = Some s → endpoint segments s.1 ∧ endpoint segments s.2.
Proof.
  intros Hs%list_elem_of_lookup_2. split; exists s; auto.
Qed.

Lemma extend_once_inv direction used done path :
  path_inv tolerance segments used done path →
  extend_once tolerance segments adjacency direction (used, path) = Ok None
  ∨ ∃ si used' path',
      extend_once tolerance segments adjacency direction (used, path)
        = Ok (Some (used', path'))
      ∧ used !! si = Some false
      ∧ used' = <[si := true]> used
      ∧ length path' = S (length path)
      ∧ path_inv tolerance segments used' done path'.
Proof.
  intros (Hcov & Hne & Hpath).
  destruct (extend_once_ok tolerance segments adjacency Hadj Hquant
              direction used path) as [[[used' path']|] Hr];
    [apply Hcov|done..| |by left].
  right.
  destruct (extend_once_Some _ _ _ _ _ _ _ _ Hr)
    as (end_point & q & si & ei & seg & Hend & Hq & Hin & Hu & Hseg & -> & ->).
  exists si, (<[si := true]> used). eexists. split; [done|].
  split; [done|]. split; [done|].
  destruct (segment_endpoints _ _ Hseg) as [He1 He2].
  assert (endpoint segments (if ei =? 0 then seg.2 else seg.1)) as Hnew
    by (by destruct (ei =? 0)).
  destruct (adjacency_sound _ _ _ Hadj _ _ _ Hin) as (s & Hs & Hei).
  assert (s = seg) as -> by congruence.
  destruct (direction =? 1); simpl.
  - split; [rewrite length_app; simpl; lia|]. split; [|split].
    + rewrite (adjacent_pairs_snoc _ _ _ Hend).
      eapply covers_Permutation;
        [|apply (covers_mark _ _ _ _ (end_point, if ei =? 0 then seg.2 else seg.1)
                   si Hcov Hu)].
      { by rewrite app_assoc, <-Permutation_cons_append. }
      exists seg. split; [done|]. unfold joins, same_key. simpl.
      destruct Hei as [[-> Hk]|[-> Hk]]; simpl; rewrite Hq, Hk; auto.
    + by destruct path.
    + apply Forall_app. split; [done|]. by constructor.
  - destruct path as [|e path]; [done|]. injection Hend as ->.
    split; [done|]. split; [|split].
    + rewrite adjacent_pairs_cons.
      eapply covers_Permutation;
        [|apply (covers_mark _ _ _ _ (if ei =? 0 then seg.2 else seg.1, end_point)
                   si Hcov Hu)].
      { apply Permutation_middle. }
      exists seg. split; [done|]. unfold joins, same_key. simpl.
      destruct Hei as [[-> Hk]|[-> Hk]]; simpl; rewrite Hq, Hk; auto.
    + done.
    + by constructor.
Qed.

Lemma path_inv_length used done path :
  path_inv tolerance segments used done path → length used = length segments.
Proof. by intros [[? _] _]. Qed.

Lemma extend_S fuel direction st :
  extend tolerance segments adjacency (S fuel) direction st
  = extend_once tolerance segments adjacency direction st
    ≫= λ r, match r with
            | None => Ok st
            | Some st => extend tolerance segments adjacency fuel direction st
            end.
Proof. done. Qed.

(** The [while] loop ends before its iterations run out, keeps the
    invariant and never shortens the path; every iteration but the last
    marks one more segment and adds one point. *)
Lemma extend_inv fuel direction used done path :
  unused used < fuel →
  path_inv tolerance segments used done path →
  ∃ used' path',
    extend tolerance segments adjacency fuel direction (used, path)
      = Ok (used', path')
    ∧ path_inv tolerance segments used' done path'
    ∧ grows used used'
    ∧ length path ≤ length path'
    ∧ length path' + unused used' = length path + unused used.
Proof.
  revert used path. induction fuel as [|fuel IH]; intros used path Hfuel Hinv; [lia|].
  rewrite extend_S.
  destruct (extend_once_inv direction used done path Hinv)
    as [->|(si & used1 & path1 & -> & Hu & -> & Hlen & Hinv1)]; simpl.
  - exists used, path. split; [done|]. split; [done|]. split; [by intros ?|lia].
  - pose proof (unused_mark _ _ Hu) as Hun.
    destruct (IH (<[si := true]> used) path1)
      as (used' & path' & -> & ? & Hg & Hl & Hl'); [lia|done|].
    exists used', path'. split; [done|]. split; [done|]. split; [|lia].
    intros i Hi. by apply Hg, grows_mark.
Qed.

Lemma start_path_inv fuel used paths start_idx :
  length segments < fuel →
  start_idx < length segments →
  covers tolerance segments used (paths ≫= adjacent_pairs) →
  ∃ used' paths',
    start_path tolerance segments adjacency fuel (used, paths) start_idx
      = Ok (used', paths')
    ∧ covers tolerance segments used' (paths' ≫= adjacent_pairs)
    ∧ grows used used'
    ∧ used' !! start_idx = Some true
    ∧ (Forall (well_formed_path segments) paths →
       Forall (well_formed_path segments) paths').
Proof.
  intros Hfuel Hidx Hcov. unfold start_path.
  pose proof (proj1 Hcov) as Hlen.
  destruct (lookup_lt_is_Some_2 used start_idx) as [u Hu]; [lia|].
  rewrite (proj2 (getitem_Ok _ _ _) Hu). simpl. destruct u.
  { exists used, paths. split; [done|]. split; [done|]. split; [by intros ?|done]. }
  destruct (lookup_lt_is_Some_2 segments start_idx) as [seg Hseg]; [lia|].
  unfold setitem. rewrite decide_True by lia. simpl.
  rewrite (proj2 (getitem_Ok _ _ _) Hseg). simpl.
  destruct (segment_endpoints _ _ Hseg) as [He1 He2].
  assert (path_inv tolerance segments (<[start_idx := true]> used)
            (paths ≫= adjacent_pairs) [seg.1; seg.2]) as Hinv0.
  { split; [|split; [done|by repeat constructor]].
    eapply covers_Permutation;
      [|apply (covers_mark _ _ _ _ (seg.1, seg.2) start_idx Hcov Hu)].
    { change (adjacent_pairs [seg.1; seg.2]) with [(seg.1, seg.2)].
      by rewrite <-Permutation_cons_append. }
    exists seg. split; [done|]. left. by split. }
  assert (unused (<[start_idx := true]> used) < fuel) as Hle.
  { pose proof (unused_le (<[start_idx := true]> used)) as Hle.
    rewrite length_insert in Hle. lia. }
  destruct (extend_inv fuel 1 _ _ _ Hle Hinv0)
    as (used1 & path1 & -> & Hinv1 & Hg1 & Hl1 & _). simpl.
  pose proof (unused_le used1) as Hle1.
  rewrite (path_inv_length _ _ _ Hinv1) in Hle1.
  destruct (extend_inv fuel 0 _ _ _ (Nat.le_lt_trans _ _ _ Hle1 Hfuel) Hinv1)
    as (used2 & path2 & -> & Hinv2 & Hg2 & Hl2 & _). simpl.
  exists used2, (paths ++ [path2]). split; [done|]. split; [|split; [|split]].
  - rewrite bind_app, bind_singleton. apply Hinv2.
  - intros i Hi. by apply Hg2, Hg1, grows_mark.
  - apply Hg2, Hg1. by rewrite list_lookup_insert_eq by lia.
  - intros HF. apply Forall_app. split; [done|]. constructor; [|done].
    split; [simpl in Hl1; lia|apply Hinv2].
Qed.
End loops.

Section whole_call.
Context (tolerance : float) (segments : list segment)
        (adjacency : gmap key (list (nat * nat))).
Hypothesis Hadj : ∀ q, adj_get adjacency q = entries tolerance segments 0 q.
Hypothesis Hquant : Forall (quantizable tolerance) segments.

Lemma start_paths_cons fuel st start_idx rest :
  start_paths tolerance segments adjacency fuel st (start_idx :: rest)
  = start_path tolerance segments adjacency fuel st start_idx
    ≫= λ st, start_paths tolerance segments adjacency fuel st rest.
Proof. done. Qed.

Lemma start_paths_inv fuel used paths start_idxs :
  length segments < fuel →
  Forall (λ i, i < length segments) start_idxs →
  covers tolerance segments used (paths ≫= adjacent_pairs) →
  ∃ used' paths',
    start_paths tolerance segments adjacency fuel (used, paths) start_idxs
      = Ok (used', paths')
    ∧ covers tolerance segments used' (paths' ≫= adjacent_pairs)
    ∧ grows used used'
    ∧ Forall (λ i, used' !! i = Some true) start_idxs
    ∧ (Forall (well_formed_path segments) paths →
       Forall (well_formed_path segments) paths').
Proof.
  intros Hfuel Hidx. revert used paths.
  induction Hidx as [|i idxs Hi _ IH]; intros used paths Hcov.
  - exists used, paths. split; [done|]. split; [done|]. split; [by intros ?|].
    split; [constructor|done].
  - rewrite start_paths_cons.
    destruct (start_path_inv tolerance segments adjacency Hadj Hquant
                fuel used paths i Hfuel Hi Hcov)
      as (used1 & paths1 & -> & Hcov1 & Hg1 & Hi1 & HF1). simpl.
    destruct (IH used1 paths1 Hcov1) as (used2 & paths2 & -> & Hcov2 & Hg2 & Hi2 & HF2).
    exists used2, paths2. split; [done|]. split; [done|].
    split; [intros j Hj; by apply Hg2, Hg1|].
    split; [constructor; [by apply Hg2|done]|auto].
Qed.
End whole_call.

Lemma sum_list_lengths (segments : list segment) (paths : list (list point)) :
  Forall (well_formed_path segments) paths →
  sum_list (length <$> paths) = length (paths ≫= adjacent_pairs) + length paths
  ∧ extension_steps paths ≤ length (paths ≫= adjacent_pairs).
Proof.
  unfold extension_steps.
  induction 1 as [|path paths [Hp _] _ [IH1 IH2]]; [done|].
  rewrite !fmap_cons, bind_cons, length_app, length_adjacent_pairs. simpl. lia.
Qed.

(** The whole call on segments whose endpoints can all be quantized: it
    returns, every segment ends up marked, the pairs of consecutive points of
    the paths stand one for one for the segments, and a path has at least
    two points, all of them endpoints of segments. *)
Lemma connect_segments_state_spec (segments : list segment) (tolerance : float) :
  Forall (quantizable tolerance) segments →
  ∃ paths,
    connect_segments_state segments tolerance
      = Ok (replicate (length segments) true, paths)
    ∧ (∃ owner, owner ≡ₚ seq 0 (length segments)
                ∧ Forall2 (owner_of tolerance segments)
                    (paths ≫= adjacent_pairs) owner)
    ∧ Forall (well_formed_path segments) paths.
Proof.
  intros Hquant. unfold connect_segments_state.
  destruct (build_adjacency_ok tolerance segments 0 ∅ Hquant) as [adjacency Hb].
  rewrite Hb. simpl.
  assert (∀ q, adj_get adjacency q = entries tolerance segments 0 q) as Hadj.
  { intros q. by rewrite (build_adjacency_get _ _ _ _ _ Hb). }
  destruct (start_paths_inv tolerance segments adjacency Hadj Hquant
              (S (length segments)) (replicate (length segments) false) []
              (seq 0 (length segments)))
    as (used & paths & -> & Hcov & _ & Hall & HF).
  { lia. }
  { apply Forall_forall. intros i ?%elem_of_seq. lia. }
  { apply covers_start. }
  assert (used = replicate (length segments) true) as ->.
  { apply list_eq_same_length with (length segments);
      [by rewrite length_replicate|apply Hcov|].
    intros i u u' Hi Hu Hu'. apply lookup_replicate in Hu' as [-> _].
    rewrite Forall_forall in Hall. rewrite Hall in Hu; [congruence|].
    apply elem_of_seq. lia. }
  exists paths. split; [done|]. split; [by eapply covers_all|]. apply HF. constructor.
Qed.

Lemma connect_segments_fast_state (segments : list segment) (tolerance : float) :
  _connect_segments_fast segments tolerance
  = connect_segments_state segments tolerance ≫= λ st, Ok st.2.
Proof. by destruct segments. Qed.

(** C1: on segments whose endpoints can be quantized the call returns; all
    segments are marked used; the pairs of consecutive points of the
    returned paths stand one for one for the segments, so no segment is
    dropped or used twice; and the paths have as many points in total as
    there are segments and paths. *)
Theorem connect_segments_conservation (segments : list segment) (tolerance : float) :
  Forall (quantizable tolerance) segments →
  ∃ paths,
    _connect_segments_fast segments tolerance = Ok paths
    ∧ connect_segments_state segments tolerance
      = Ok (replicate (length segments) true, paths)
    ∧ (∃ owner, owner ≡ₚ seq 0 (length segments)
                ∧ Forall2 (owner_of tolerance segments)
                    (paths ≫= adjacent_pairs) owner)
    ∧ sum_list (length <$> paths) = length segments + length paths.
Proof.
  intros Hquant.
  destruct (connect_segments_state_spec segments tolerance Hquant)
    as (paths & Hst & (owner & Hperm & Hown) & HF).
  exists paths. rewrite connect_segments_fast_state, Hst.
  split; [done|]. split; [done|]. split; [by exists owner|].
  rewrite (proj1 (sum_list_lengths segments paths HF)).
  by rewrite (Forall2_length _ _ _ Hown), Hperm, length_seq.
Qed.

(** C9: the call never exhausts the iterations given to a [while] loop; the
    extension steps of a whole call number at most the segments; and an
    iteration of the loop either finds nothing, which ends the loop, or marks
    a segment that was unused and adds one point. *)
Theorem connect_segments_terminates (segments : list segment) (tolerance : float) :
  _connect_segments_fast segments tolerance ≠ OutOfFuel
  ∧ (∀ paths, _connect_segments_fast segments tolerance = Ok paths →
       extension_steps paths ≤ length segments)
  ∧ (∀ adjacency direction used path r,
       extend_once tolerance segments adjacency direction (used, path) = Ok r →
       r = None
       ∨ ∃ si path', used !! si = Some false
                     ∧ r = Some (<[si := true]> used, path')
                     ∧ length path' = S (length path)).
Proof.
  rewrite connect_segments_fast_state.
  assert (connect_segments_state segments tolerance ≠ OutOfFuel
          ∧ ∀ st, connect_segments_state segments tolerance = Ok st →
                  Forall (quantizable tolerance) segments) as [Hno Hq].
  { unfold connect_segments_state.
    destruct (build_adjacency tolerance segments 0 ∅) as [adjacency| |] eqn:Hb.
    - apply build_adjacency_quantizable in Hb as Hquant.
      destruct (connect_segments_state_spec segments tolerance Hquant)
        as (paths & Hst & _).
      unfold connect_segments_state in Hst. rewrite Hb in Hst. simpl in *.
      rewrite Hst. by split.
    - by split.
    - by apply build_adjacency_no_timeout in Hb. }
  split; [|split].
  - by destruct (connect_segments_state segments tolerance).
  - intros paths (st & Hst & [= <-])%bind_Ok.
    destruct (connect_segments_state_spec segments tolerance (Hq _ Hst))
      as (paths & Hst' & (owner & Hperm & Hown) & HF).
    rewrite Hst in Hst'. injection Hst' as ->. simpl.
    etrans; [apply (sum_list_lengths _ _ HF)|].
    by rewrite (Forall2_length _ _ _ Hown), Hperm, length_seq.
  - intros adjacency direction used path [[used' path']|] Hr; [right|by left].
    destruct (extend_once_Some _ _ _ _ _ _ _ _ Hr)
      as (end_point & q & si & ei & seg & _ & _ & _ & Hu & _ & -> & ->).
    exists si. eexists. split; [done|]. split; [done|].
    destruct (direction =? 1); simpl; [rewrite length_app; simpl; lia|done].
Qed.

Lemma connect_segments_conservation_witness :
  ∃ paths,
    _connect_segments_fast chain_segments default_tolerance = Ok paths
    ∧ connect_segments_state chain_segments default_tolerance
      = Ok (replicate (length chain_segments) true, paths)
    ∧ (∃ owner, owner ≡ₚ seq 0 (length chain_segments)
                ∧ Forall2 (owner_of default_tolerance chain_segments)
                    (paths ≫= adjacent_pairs) owner)
    ∧ sum_list (length <$> paths) = length chain_segments + length paths.
Proof.
  apply (connect_segments_conservation chain_segments default_tolerance).
  repeat constructor; by eexists.
Defined.

Lemma connect_segments_terminates_witness :
  extension_steps chain_paths ≤ length chain_segments.
Proof.
  apply (proj1 (proj2 (connect_segments_terminates chain_segments default_tolerance))).
  compute_eq.
Defined.

(** ** find_contours *)

Lemma finite_Fin (a : float) : finite a ↔ ∃ q, a = Fin q.
Proof. unfold finite. destruct a; naive_solver. Qed.

Lemma tolerance_nonzero : Q2Qc 1e-8%Q ≠ Q2Qc 0%Q.
Proof. intros H. apply (f_equal this) in H. by vm_compute in H. Qed.

Lemma quantize_finite (p : point) :
  finite_point p → is_ok (quantize default_tolerance p).
Proof.
  destruct p as [a b]. unfold finite_point. simpl.
  intros [[p ->]%finite_Fin [q ->]%finite_Fin].
  unfold quantize, default_tolerance, lit, fdiv. cbn [fst snd].
  rewrite !decide_False by apply tolerance_nonzero. by eexists.
Qed.

Lemma elem_of_cells (z : ndarray2) (c : cell) :
  c ∈ cells z ↔ c.1 + 1 < shape0 z ∧ c.2 + 1 < shape1 z.
Proof.
  unfold cells. rewrite list_elem_of_bind. split.
  - intros (i & (j & ->%list_elem_of_singleton & Hj%elem_of_seq)%list_elem_of_bind
              & Hi%elem_of_seq). simpl. lia.
  - intros [??]. exists c.1. split; [|apply elem_of_seq; lia].
    apply list_elem_of_bind. exists c.2. split; [|apply elem_of_seq; lia].
    destruct c. by apply list_elem_of_singleton.
Qed.

Lemma lookup_total_finite (x : list float) (j : nat) :
  Forall finite x → j < length x → finite (x !!! j).
Proof.
  intros Hx Hj. rewrite Forall_forall in Hx. apply Hx.
  by apply list_elem_of_lookup_total_2.
Qed.

Lemma interpolation_parameter_finite (level va vb : float) :
  finite level → finite va → finite vb →
  finite (interpolation_parameter level va vb).
Proof.
  intros [l ->]%finite_Fin [a ->]%finite_Fin [b ->]%finite_Fin.
  unfold interpolation_parameter. simpl. case_bool_decide as Hlt; [done|].
  rewrite decide_False; [done|].
  intros H0. apply Hlt. rewrite H0. by apply Qclt_alt.
Qed.

Lemma crossing_point_finite (level va vb : float) (pa pb : point) :
  finite level → finite va → finite vb → finite_point pa → finite_point pb →
  finite_point (crossing_point level va vb pa pb).
Proof.
  intros Hl Ha Hb [[a1 H1]%finite_Fin [a2 H2]%finite_Fin]
         [[b1 H3]%finite_Fin [b2 H4]%finite_Fin].
  pose proof (interpolation_parameter_finite level va vb Hl Ha Hb) as [t Ht]%finite_Fin.
  unfold crossing_point. rewrite Ht, H1, H2, H3, H4. by split.
Qed.

Lemma valid_corners (z : ndarray2) (c : cell) (k : nat) :
  valid z c = true → finite (corner_value z c k).
Proof.
  unfold valid, finite. rewrite negb_true_iff, !orb_false_iff.
  intros [[[??]?]?]. by destruct k as [|[|[|?]]].
Qed.

Lemma corner_point_finite (x y : list float) (z : ndarray2) (c : cell) (k : nat) :
  Forall finite x → Forall finite y →
  length x = shape1 z → length y = shape0 z → c ∈ cells z →
  finite_point (corner_point x y c k).
Proof.
  intros Hx Hy Hlx Hly [??]%elem_of_cells.
  destruct k as [|[|[|?]]]; split; simpl; apply lookup_total_finite; done || lia.
Qed.

(** A level that is NaN leaves every cell in case 0. *)
Lemma case_index_nan (z : ndarray2) (c : cell) : case_index z NaN c = 0.
Proof.
  unfold case_index, above, fge, fle.
  by destruct (z00 z c), (z01 z c), (z11 z c), (z10 z c).
Qed.

Lemma cell_segments_finite (x y : list float) (z : ndarray2) (level : float)
    (c : cell) :
  Forall finite x → Forall finite y →
  length x = shape1 z → length y = shape0 z → c ∈ cells z →
  Forall (λ s, finite_point s.1 ∧ finite_point s.2) (cell_segments x y z level c).
Proof.
  intros Hx Hy Hlx Hly Hc. unfold cell_segments.
  destruct (valid z c) eqn:Hv; [|constructor].
  destruct level as [|l]; [by rewrite case_index_nan|].
  apply Forall_fmap, Forall_forall. intros pr _. simpl.
  split; apply crossing_point_finite;
    done || by (apply valid_corners || eapply corner_point_finite).
Qed.

Lemma all_segments_finite (x y : list float) (z : ndarray2) (level : float) :
  Forall finite x → Forall finite y →
  length x = shape1 z → length y = shape0 z →
  Forall (λ s, finite_point s.1 ∧ finite_point s.2) (all_segments x y z level).
Proof.
  intros Hx Hy Hlx Hly. rewrite all_segments_by_cell.
  apply Forall_bind, Forall_forall. intros c Hc. by apply cell_segments_finite.
Qed.

Lemma all_segments_quantizable (x y : list float) (z : ndarray2) (level : float) :
  Forall finite x → Forall finite y →
  length x = shape1 z → length y = shape0 z →
  Forall (quantizable default_tolerance) (all_segments x y z level).
Proof.
  intros Hx Hy Hlx Hly.
  eapply Forall_impl; [by apply all_segments_finite|].
  intros s [??]. split; by apply quantize_finite.
Qed.

(** The stitching raises nothing but the error of [round]. *)
Lemma connect_segments_fast_outcome (segments : list segment) (tolerance : float) :
  (∃ paths, _connect_segments_fast segments tolerance = Ok paths
            ∧ Forall (well_formed_path segments) paths)
  ∨ _connect_segments_fast segments tolerance = Raise RoundNaN.
Proof.
  rewrite connect_segments_fast_state.
  destruct (build_adjacency tolerance segments 0 ∅) as [adjacency|e|] eqn:Hb.
  - apply build_adjacency_quantizable in Hb as Hquant.
    destruct (connect_segments_state_spec segments tolerance Hquant)
      as (paths & -> & _ & HF). left. by exists paths.
  - right. unfold connect_segments_state. rewrite Hb. simpl. f_equal.
    clear -Hb. revert Hb. generalize 0, (∅ : gmap key (list (nat * nat))).
    induction segments as [|[p0 p1] rest IH]; simpl; [done|]. intros k a0.
    assert (∀ p e', quantize tolerance p = Raise e' → e' = RoundNaN) as Hq.
    { intros p e'. unfold quantize. repeat case_match; congruence. }
    destruct (quantize tolerance p0) eqn:E0; simpl; [|intros [= <-]; eauto|done].
    destruct (quantize tolerance p1) eqn:E1; simpl; [|intros [= <-]; eauto|done].
    apply IH.
  - by apply build_adjacency_no_timeout in Hb.
Qed.

(** On coordinates without NaN and matching shapes the call returns. *)
Lemma find_contours_ok (x y : list float) (z : ndarray2) (level : float) :
  length x = shape1 z → length y = shape0 z →
  Forall finite x → Forall finite y →
  is_ok (find_contours x y z level).
Proof.
  intros Hlx Hly Hx Hy. unfold find_contours.
  rewrite Hlx, Hly, !Nat.eqb_refl. simpl.
  destruct (_ || _); [by eexists|].
  rewrite connect_segments_fast_state.
  destruct (connect_segments_state_spec (all_segments x y z level) default_tolerance)
    as (paths & -> & _); [by apply all_segments_quantizable|by eexists].
Qed.

(** C10: a path returned by [find_contours] has at least two points. *)
Theorem find_contours_paths_two_points (x y : list float) (z : ndarray2)
    (level : float) (paths : list (list point)) :
  find_contours x y z level = Ok paths →
  Forall (λ path, 2 ≤ length path) paths.
Proof.
  unfold find_contours. repeat case_match; [done|by intros [= <-]|].
  intros Hp.
  destruct (connect_segments_fast_outcome (all_segments x y z level) default_tolerance)
    as [(paths' & Hp' & HF)|Hp']; [|congruence].
  assert (paths' = paths) as -> by congruence.
  eapply Forall_impl; [done|]. by intros path [??].
Qed.

Lemma find_contours_paths_two_points_witness :
  Forall (λ path, 2 ≤ length path) saddle_paths.
Proof.
  apply (find_contours_paths_two_points unit_x unit_y saddle_grid (lit 0%Q)).
  compute_eq.
Defined.



Lemma valid_false (z : ndarray2) (c : cell) :
  valid z c = false ↔ ∃ k, k < 4 ∧ isnan (corner_value z c k) = true.
Proof.
  unfold valid. rewrite negb_false_iff, !orb_true_iff. split.
  - intros [[[?|?]|?]|?]; [exists 0|exists 1|exists 2|exists 3]; split; done || lia.
  - intros (k & Hk & Hnan). destruct k as [|[|[|[|?]]]]; simpl in Hnan; auto || lia.
Qed.



(** Every edge that the table lists for a case joins a corner at or above
    the level to a corner below it. *)
Lemma edge_table_separates (case : nat) (pr : nat * nat) (e : nat) :
  pr ∈ _EDGE_TABLE case → e = pr.1 ∨ e = pr.2 →
  e < 4 ∧ Nat.testbit case e ≠ Nat.testbit case (S e mod 4).
Proof.
  do 16 (destruct case as [|case];
    [simpl; intros H He;
     repeat (apply elem_of_cons in H as [->|H];
             [destruct He as [-> | ->]; simpl; split; lia || done|]);
     by apply elem_of_nil in H|]).
  simpl. by intros H%elem_of_nil.
Qed.

Lemma interp_edge_divisor (x y : list float) (z : ndarray2) (level : float)
    (c : cell) (e : nat) :
  e < 4 →
  (interp_edge x y z level c e).2
  = [(corner_value z c (S e mod 4) - corner_value z c e)%F].
Proof.
  intros He. destruct c as [ci cj].
  destruct e as [|[|[|[|?]]]]; [| | |  |lia]; reflexivity.
Qed.

Lemma separated_difference (level va vb : float) :
  finite va → finite vb → (va >=? level)%F ≠ (vb >=? level)%F →
  ∃ q, (vb - va)%F = Fin q ∧ q ≠ Q2Qc 0%Q.
Proof.
  intros [a ->]%finite_Fin [b ->]%finite_Fin Hne. exists (b - a)%Qc.
  split; [done|]. intros ->%Qcminus_eq_0. done.
Qed.

Lemma elem_of_all_divisors (x y : list float) (z : ndarray2) (level : float)
    (d : float) :
  d ∈ all_divisors x y z level →
  ∃ c pr e, mask z level (case_index z level c) c = true
            ∧ pr ∈ _EDGE_TABLE (case_index z level c) ∧ (e = pr.1 ∨ e = pr.2)
            ∧ d ∈ (interp_edge x y z level c e).2.
Proof.
  unfold all_divisors. intros (case & Hd & _)%list_elem_of_bind.
  destruct (filter _ (cells z)) as [|c0 sel] eqn:Hsel; [by apply elem_of_nil in Hd|].
  rewrite <-Hsel in Hd. clear Hsel.
  apply list_elem_of_bind in Hd as ([e1 e2] & Hd & Hpr).
  assert (∀ c, mask z level case c = true → case_index z level c = case) as Hcase.
  { intros c Hm. unfold mask in Hm. by apply andb_true_iff in Hm as [Hm%Nat.eqb_eq _]. }
  apply elem_of_app in Hd as [Hd|Hd];
    apply list_elem_of_bind in Hd as (c & Hd & [Hm _]%list_elem_of_filter);
    [exists c, (e1, e2), e1|exists c, (e1, e2), e2];
    rewrite (Hcase c Hm); auto.
Qed.

Lemma elem_of_all_segments (x y : list float) (z : ndarray2) (level : float)
    (s : segment) :
  s ∈ all_segments x y z level →
  ∃ c pr, c ∈ cells z ∧ valid z c = true
          ∧ pr ∈ _EDGE_TABLE (case_index z level c)
          ∧ s = (edge_crossing x y z level c pr.1, edge_crossing x y z level c pr.2).
Proof.
  rewrite all_segments_by_cell.
  intros (c & Hs & Hc)%list_elem_of_bind. unfold cell_segments in Hs.
  destruct (valid z c) eqn:Hv; [|by apply elem_of_nil in Hs].
  apply list_elem_of_fmap in Hs as (pr & -> & Hpr). by exists c, pr.
Qed.

(** C3 (amended): bit [k] of the case index says whether corner [k] is at or
    above the level; the collected segments are, up to order, those that the
    edge table gives for the case of each cell without a NaN corner, none in
    the cases 0 and 15; the cases 5 and 10 give two segments each, on the
    edge pairs (3,0), (1,2) and (0,1), (2,3). *)
Theorem marching_squares_cases (x y : list float) (z : ndarray2) (level : float) :
  (∀ c k, k < 4 →
     Nat.testbit (case_index z level c) k = (corner_value z c k >=? level)%F)
  ∧ all_segments x y z level ≡ₚ cells z ≫= cell_segments x y z level
  ∧ (∀ c, valid z c = true →
       cell_segments x y z level c
       = (λ pr, (edge_crossing x y z level c pr.1, edge_crossing x y z level c pr.2))
           <$> _EDGE_TABLE (case_index z level c))
  ∧ (∀ c, valid z c = false → cell_segments x y z level c = [])
  ∧ _EDGE_TABLE 0 = [] ∧ _EDGE_TABLE 15 = []
  ∧ _EDGE_TABLE 5 = [(3, 0); (1, 2)] ∧ _EDGE_TABLE 10 = [(0, 1); (2, 3)].
Proof.
  split; [apply case_index_testbit|]. split; [apply all_segments_by_cell|].
  split; [|split; [|done]]; intros c Hv; unfold cell_segments; by rewrite Hv.
Qed.

Lemma marching_squares_cases_witness :
  cell_segments unit_x unit_y saddle_grid (lit 0%Q) (0, 0)
  = (λ pr, (edge_crossing unit_x unit_y saddle_grid (lit 0%Q) (0, 0) pr.1,
            edge_crossing unit_x unit_y saddle_grid (lit 0%Q) (0, 0) pr.2))
      <$> _EDGE_TABLE (case_index saddle_grid (lit 0%Q) (0, 0)).
Proof.
  apply (proj1 (proj2 (proj2 (marching_squares_cases unit_x unit_y saddle_grid
                                (lit 0%Q))))).
  reflexivity.
Defined.

(** The claim C3 fails at two inputs.  The cell of [nan_grid] is in case 14,
    for which the table lists the edge pair (0,3), and gives no segment.
    The cell of [saddle_grid] is in case 5, and its two segments are not
    parallel. *)
Lemma marching_squares_cases_counterexample :
  (case_index nan_grid (lit 0%Q) (0, 0) = 14
   ∧ _EDGE_TABLE 14 = [(0, 3)]
   ∧ all_segments unit_x unit_y nan_grid (lit 0%Q) = [])
  ∧ (case_index saddle_grid (lit 0%Q) (0, 0) = 5
     ∧ all_segments unit_x unit_y saddle_grid (lit 0%Q)
       = [((lit 0, lit 0.25), (lit 0.5, lit 0));
          ((lit 1, lit 0.5), (lit 0.75, lit 1))]%Q
     ∧ ¬ parallel ((lit 0, lit 0.25), (lit 0.5, lit 0))%Q
                  ((lit 1, lit 0.5), (lit 0.75, lit 1))%Q).
Proof.
  split; [split; [|split]|split; [|split]]; try compute_eq.
  unfold parallel. intros H. revert H. apply (bool_decide_unpack _). vm_compute. exact I.
Qed.




(** ** Scaling *)

Ltac float_ring :=
  repeat match goal with a : float |- _ => destruct a end;
  simpl; try done; f_equal; ring.

Lemma fmul_add_distr (c a b : float) : (c * a + c * b = c * (a + b))%F.
Proof. unfold fadd, fmul. float_ring. Qed.

Lemma fmul_sub_distr (c a b : float) : (c * a - c * b = c * (a - b))%F.
Proof. unfold fsub, fmul. float_ring. Qed.

Lemma fmul_interpolate (c t a b : float) :
  (c * a + t * (c * b - c * a) = c * (a + t * (b - a)))%F.
Proof. unfold fadd, fsub, fmul. float_ring. Qed.

Lemma Qcmult_eq_0 (c q : Qc) :
  c ≠ Q2Qc 0%Q → (c * q)%Qc = Q2Qc 0%Q ↔ q = Q2Qc 0%Q.
Proof.
  intros Hc. split; [|intros ->; ring].
  intros [?|?]%Qcmult_integral; done.
Qed.

Lemma fmul_div_scale (c : Qc) (a b d : float) :
  c ≠ Q2Qc 0%Q →
  ((Fin c * a) * (Fin c * b) / (Fin c * d) = Fin c * (a * b / d))%F.
Proof.
  intros Hc. destruct a as [|a], b as [|b], d as [|d]; simpl; try done.
  destruct (decide (d = Q2Qc 0%Q)) as [->|Hd].
  - rewrite decide_True; [done|]. ring.
  - rewrite decide_False by (by rewrite Qcmult_eq_0). simpl. f_equal. by field.
Qed.

Lemma flt_scale (c : Qc) (a b : float) :
  (Q2Qc 0%Q < c)%Qc → (Fin c * a <? Fin c * b)%F = (a <? b)%F.
Proof.
  intros Hc. destruct a as [|a], b as [|b]; simpl; try done.
  apply bool_decide_ext. symmetry. by apply Qcmult_lt_mono_pos_l.
Qed.

Lemma crosses_scale (c : Qc) (p : point) (e : point * point) :
  (Q2Qc 0%Q < c)%Qc →
  crosses (scale (Fin c) p) (scale_segment (Fin c) e) = crosses p e.
Proof.
  intros Hc. destruct p as [px py], e as [[x1 y1] [x2 y2]].
  assert (c ≠ Q2Qc 0%Q) as Hc0 by (intros ->; by apply Qclt_not_eq in Hc).
  unfold crosses, straddles, x_intersection, scale_segment, map_segment, scale, fgt.
  cbn [fst snd].
  rewrite !fmul_sub_distr, fmul_div_scale, fmul_add_distr, !flt_scale; done.
Qed.

Lemma edges_cons (a b : point) (l : list point) :
  edges (a :: b :: l) = (a, b) :: edges (b :: l).
Proof. done. Qed.

Lemma edges_fmap (f : point → point) (l : list point) :
  edges (f <$> l) = (λ e, (f e.1, f e.2)) <$> edges l.
Proof.
  induction l as [|a [|b l] IH]; [done..|].
  rewrite !fmap_cons, !edges_cons, fmap_cons. f_equal. apply IH.
Qed.

Lemma List_last_fmap (f : point → point) (l : list point) (d : point) :
  List.last (f <$> l) (f d) = f (List.last l d).
Proof. induction l as [|a [|b l] IH]; done. Qed.

Lemma last_List_last (a d : point) (l : list point) :
  list.last (a :: l) = Some (List.last (a :: l) d).
Proof.
  revert a. induction l as [|b l IH]; intros a; [done|].
  rewrite last_cons_cons. apply IH.
Qed.

Lemma close_polygon_fmap (f : point → point) (polygon : list point) :
  (∀ v0 vl, head polygon = Some v0 → list.last polygon = Some vl →
            np_allclose (f v0) (f vl) = np_allclose v0 vl) →
  close_polygon (f <$> polygon) = f <$> close_polygon polygon.
Proof.
  destruct polygon as [|v0 l]; [done|]. intros Hclose.
  unfold close_polygon. rewrite fmap_cons.
  change (f v0 :: (f <$> l)) with (f <$> v0 :: l).
  rewrite List_last_fmap, (Hclose v0 (List.last (v0 :: l) v0));
    [|done|apply last_List_last].
  destruct (negb _); [|done]. by rewrite fmap_app.
Qed.

Lemma crossing_count_fmap (p p' : point) (g : point * point → point * point)
    (es : list (point * point)) :
  (∀ e, crossing p' (g e) = crossing p e) →
  crossing_count p' (g <$> es) = crossing_count p es.
Proof.
  intros Hg. unfold crossing_count. induction es as [|e es IH]; [done|].
  rewrite fmap_cons, !filter_cons, Hg. case_decide; simpl; by rewrite IH.
Qed.

Lemma isclose_refl (a : Qc) : isclose (Fin a) (Fin a) = true.
Proof.
  unfold isclose, rtol, atol, lit. simpl. apply bool_decide_eq_true_2.
  replace (a - a)%Qc with (Q2Qc 0%Q) by ring.
  rewrite Qcabs_pos by apply Qcle_refl.
  apply Qcplus_nonneg_nonneg; [by apply Qcle_alt|].
  apply Qcmult_nonneg_nonneg; [by apply Qcle_alt|apply Qcabs_nonneg].
Qed.

Lemma np_allclose_refl_scale (c : Qc) (v : point) :
  np_allclose (scale (Fin c) v) (scale (Fin c) v) = np_allclose v v.
Proof.
  assert (∀ a, isclose (Fin c * a) (Fin c * a) = isclose a a) as Hrefl.
  { intros [|a]; [done|]. change (Fin c * Fin a)%F with (Fin (c * a)).
    by rewrite !isclose_refl. }
  unfold np_allclose, scale. cbn [fst snd]. by rewrite !Hrefl.
Qed.

Lemma points_in_polygon_fmap (c : Qc) (points polygon : list point) :
  (Q2Qc 0%Q < c)%Qc →
  (∀ v0 vl, head polygon = Some v0 → list.last polygon = Some vl →
            np_allclose (scale (Fin c) v0) (scale (Fin c) vl) = np_allclose v0 vl) →
  points_in_polygon (scale (Fin c) <$> points) (scale (Fin c) <$> polygon)
  = points_in_polygon points polygon.
Proof.
  intros Hc Hclose. unfold points_in_polygon. rewrite !length_fmap.
  destruct (_ <? 3); [done|].
  rewrite close_polygon_fmap, edges_fmap by done.
  rewrite <-list_fmap_compose. apply list_fmap_ext. intros _ p _. simpl.
  rewrite (crossing_count_fmap p); [done|]. intros e.
  by rewrite !crossing_crosses, <-(crosses_scale c p e Hc).
Qed.

Lemma lookup_total_scale (c : float) (x : list float) (j : nat) :
  (fmul c <$> x) !!! j = (c * (x !!! j))%F.
Proof.
  destruct (decide (j < length x)) as [Hj|Hj].
  - by apply list_lookup_total_fmap.
  - rewrite !list_lookup_total_alt, list_lookup_fmap.
    rewrite (lookup_ge_None_2 x j) by lia. simpl. by destruct c.
Qed.

Lemma interp_edge_scale (c : float) (x y : list float) (z : ndarray2)
    (level : float) (cl : cell) (e : nat) :
  (interp_edge (fmul c <$> x) (fmul c <$> y) z level cl e).1
  = scale c (interp_edge x y z level cl e).1.
Proof.
  destruct cl as [ci cj]. unfold interp_edge, scale.
  destruct e as [|[|[|?]]]; cbn [fst snd];
    by rewrite !lookup_total_scale, !fmul_interpolate.
Qed.

Lemma fmap_bind {A B C} (f : B → C) (g : A → list B) (l : list A) :
  f <$> (l ≫= g) = l ≫= λ a, f <$> g a.
Proof.
  induction l as [|a l IH]; [done|]. by rewrite !bind_cons, fmap_app, IH.
Qed.

Lemma all_segments_scale (c : float) (x y : list float) (z : ndarray2)
    (level : float) :
  all_segments (fmul c <$> x) (fmul c <$> y) z level
  = scale_segment c <$> all_segments x y z level.
Proof.
  unfold all_segments. rewrite fmap_bind. apply list_bind_ext; [|done].
  intros case. rewrite !case_segments_segs_on. unfold segs_on.
  rewrite fmap_bind. apply list_bind_ext; [|done]. intros pr.
  rewrite <-list_fmap_compose. apply list_fmap_ext. intros _ cl _.
  unfold seg_of, scale_segment, map_segment. simpl. by rewrite !interp_edge_scale.
Qed.

(** *** Stitching the image of the segments under a map on points

    When a map [f] on points neither merges nor separates the quantized
    endpoints, the stitching of the mapped segments takes the same steps. *)

Section simulation.
Context (tolerance : float) (f : point → point) (segments : list segment)
        (adjacency adjacency' : gmap key (list (nat * nat))).
Hypothesis Hadj : ∀ q, adj_get adjacency q = entries tolerance segments 0 q.
Hypothesis Hadj' : ∀ q, adj_get adjacency' q
                        = entries tolerance (map_segment f <$> segments) 0 q.
Hypothesis Hquant : Forall (quantizable tolerance) segments.
Hypothesis Hquant' : Forall (quantizable tolerance) (map_segment f <$> segments).
Hypothesis Hkeys : ∀ p p', endpoint segments p → endpoint segments p' →
  (same_key tolerance (f p) (f p') ↔ same_key tolerance p p').

Lemma endpoint_fmap p :
  endpoint segments p → endpoint (map_segment f <$> segments) (f p).
Proof.
  intros (s & Hs & Hp). exists (map_segment f s).
  split; [by apply list_elem_of_fmap_2|]. destruct Hp as [-> | ->]; auto.
Qed.

Lemma entries_fmap p q q' l k :
  endpoint segments p →
  quantize tolerance p = Ok q → quantize tolerance (f p) = Ok q' →
  Forall (λ s, s ∈ segments) l →
  entries tolerance (map_segment f <$> l) k q' = entries tolerance l k q.
Proof.
  intros Hp Hq Hq' Hl. revert k.
  induction Hl as [|[p0 p1] l Hs _ IH]; intros k; [done|].
  rewrite fmap_cons. simpl. rewrite IH.
  assert (∀ p2, endpoint segments p2 →
                quantize tolerance (f p2) = Ok q' ↔ quantize tolerance p2 = Ok q) as Hiff.
  { intros p2 Hp2. rewrite <-Hq, <-Hq'. apply (Hkeys p2 p Hp2 Hp). }
  f_equal; [|f_equal]; apply decide_ext, Hiff; exists (p0, p1); auto.
Qed.

Lemma extend_once_fmap direction used path :
  path ≠ [] → Forall (endpoint segments) path →
  extend_once tolerance (map_segment f <$> segments) adjacency' direction
    (used, f <$> path)
  = fmap (M:=option) (map_path_state f)
      <$> extend_once tolerance segments adjacency direction (used, path).
Proof.
  intros Hne Hpath. unfold extend_once.
  assert (∃ end_point,
            (if direction =? 1 then getlast path else getitem path 0) = Ok end_point
            ∧ (if direction =? 1 then getlast (f <$> path) else getitem (f <$> path) 0)
              = Ok (f end_point)
            ∧ endpoint segments end_point) as (end_point & -> & -> & Hend).
  { destruct (direction =? 1).
    - unfold getlast. rewrite fmap_last.
      destruct (list.last path) as [e|] eqn:He; [|by apply last_None in He].
      exists e. split; [done|]. split; [done|]. rewrite Forall_forall in Hpath.
      apply Hpath. by apply last_Some_elem_of.
    - destruct path as [|e path]; [done|]. exists e. split; [done|]. split; [done|].
      by inversion Hpath. }
  simpl.
  destruct (endpoint_quantizable tolerance segments Hquant _ Hend) as [q Hq].
  destruct (endpoint_quantizable tolerance _ Hquant' _ (endpoint_fmap _ Hend))
    as [q' Hq'].
  rewrite Hq, Hq'. simpl.
  rewrite Hadj, Hadj', (entries_fmap end_point q q') by (done || by apply Forall_forall).
  destruct (find_unused used _) as [[[si ei]|]| |]; simpl; try done.
  unfold getitem. rewrite list_lookup_fmap.
  destruct (segments !! si) as [seg|]; simpl; [|done].
  destruct (setitem used si true); simpl; [|done..].
  unfold map_path_state. simpl. do 3 f_equal.
  destruct (direction =? 1), (ei =? 0); by rewrite ?fmap_app.
Qed.

Lemma extend_once_endpoints direction used path used' path' :
  extend_once tolerance segments adjacency direction (used, path)
    = Ok (Some (used', path')) →
  path ≠ [] → Forall (endpoint segments) path →
  path' ≠ [] ∧ Forall (endpoint segments) path'.
Proof.
  intros (end_point & q & si & ei & seg & _ & _ & _ & _ & Hseg & -> & ->)%extend_once_Some
         Hne Hpath.
  destruct (segment_endpoints _ _ _ Hseg).
  assert (endpoint segments (if ei =? 0 then seg.2 else seg.1))
    by (by destruct (ei =? 0)).
  simpl. destruct (direction =? 1).
  - split; [by destruct path|]. apply Forall_app. split; [done|by constructor].
  - split; [done|by constructor].
Qed.

Lemma extend_fmap fuel direction used path :
  path ≠ [] → Forall (endpoint segments) path →
  extend tolerance (map_segment f <$> segments) adjacency' fuel direction
    (used, f <$> path)
  = map_path_state f
      <$> extend tolerance segments adjacency fuel direction (used, path).
Proof.
  revert used path. induction fuel as [|fuel IH]; intros used path Hne Hpath; [done|].
  rewrite !extend_S, extend_once_fmap by done.
  destruct (extend_once tolerance segments adjacency direction (used, path))
    as [[[used1 path1]|]| |] eqn:Hr; simpl; try done.
  destruct (extend_once_endpoints _ _ _ _ _ Hr Hne Hpath). by apply IH.
Qed.

Lemma extend_endpoints fuel direction used path used' path' :
  extend tolerance segments adjacency fuel direction (used, path) = Ok (used', path') →
  path ≠ [] → Forall (endpoint segments) path →
  path' ≠ [] ∧ Forall (endpoint segments) path'.
Proof.
  revert used path. induction fuel as [|fuel IH]; intros used path; [done|].
  rewrite extend_S. intros (r & Hr & H)%bind_Ok Hne Hpath.
  destruct r as [[used1 path1]|]; [|by injection H as <- <-].
  destruct (extend_once_endpoints _ _ _ _ _ Hr Hne Hpath). by eapply IH.
Qed.

Lemma start_path_fmap fuel used paths start_idx :
  start_path tolerance (map_segment f <$> segments) adjacency' fuel
    (used, fmap (M:=list) f <$> paths) start_idx
  = map_paths_state f
      <$> start_path tolerance segments adjacency fuel (used, paths) start_idx.
Proof.
  unfold start_path.
  destruct (getitem used start_idx) as [[|]| |]; simpl; try done.
  destruct (setitem used start_idx true) as [used0| |]; simpl; try done.
  unfold getitem. rewrite list_lookup_fmap.
  destruct (segments !! start_idx) as [seg|] eqn:Hseg; simpl; [|done].
  destruct (segment_endpoints _ _ _ Hseg).
  change [f seg.1; f seg.2] with (f <$> [seg.1; seg.2]).
  rewrite extend_fmap by (done || by repeat constructor).
  destruct (extend tolerance segments adjacency fuel 1 (used0, [seg.1; seg.2]))
    as [[used1 path1]| |] eqn:H1; simpl; try done.
  destruct (extend_endpoints _ _ _ _ _ _ H1) as [??];
    [done|by repeat constructor|].
  unfold map_path_state at 1. simpl. rewrite extend_fmap by done.
  destruct (extend tolerance segments adjacency fuel 0 (used1, path1))
    as [[used2 path2]| |]; simpl; try done.
  unfold map_paths_state. simpl. by rewrite fmap_app.
Qed.

Lemma start_paths_fmap fuel used paths start_idxs :
  start_paths tolerance (map_segment f <$> segments) adjacency' fuel
    (used, fmap (M:=list) f <$> paths) start_idxs
  = map_paths_state f
      <$> start_paths tolerance segments adjacency fuel (used, paths) start_idxs.
Proof.
  revert used paths. induction start_idxs as [|i idxs IH]; intros used paths; [done|].
  rewrite !start_paths_cons, start_path_fmap.
  destruct (start_path tolerance segments adjacency fuel (used, paths) i)
    as [[used1 paths1]| |]; simpl; try done.
  apply IH.
Qed.
End simulation.

Lemma adj_get_empty (q : key) : adj_get ∅ q = [].
Proof. unfold adj_get. by rewrite lookup_empty. Qed.

Lemma connect_segments_fast_fmap (tolerance : float) (f : point → point)
    (segments : list segment) :
  Forall (quantizable tolerance) segments →
  Forall (quantizable tolerance) (map_segment f <$> segments) →
  (∀ p p', endpoint segments p → endpoint segments p' →
           (same_key tolerance (f p) (f p') ↔ same_key tolerance p p')) →
  _connect_segments_fast (map_segment f <$> segments) tolerance
  = fmap (M:=list) (fmap (M:=list) f) <$> _connect_segments_fast segments tolerance.
Proof.
  intros Hquant Hquant' Hkeys. rewrite !connect_segments_fast_state.
  unfold connect_segments_state.
  destruct (build_adjacency_ok tolerance segments 0 ∅ Hquant) as [adjacency Hb].
  destruct (build_adjacency_ok tolerance _ 0 ∅ Hquant') as [adjacency' Hb'].
  rewrite Hb, Hb', length_fmap. simpl.
  change (@nil (list point)) with (fmap (M:=list) f <$> @nil (list point)) at 1.
  rewrite (start_paths_fmap tolerance f segments adjacency adjacency'); try done.
  - by destruct (start_paths _ _ _ _ _ _) as [[used paths]| |].
  - intros q. by rewrite (build_adjacency_get _ _ _ _ _ Hb), adj_get_empty.
  - intros q. by rewrite (build_adjacency_get _ _ _ _ _ Hb'), adj_get_empty.
Qed.

Lemma find_contours_scale (c : Qc) (x y : list float) (z : ndarray2)
    (level : float) :
  Forall finite x → Forall finite y →
  (∀ p p', endpoint (all_segments x y z level) p →
           endpoint (all_segments x y z level) p' →
           (same_key default_tolerance (scale (Fin c) p) (scale (Fin c) p')
            ↔ same_key default_tolerance p p')) →
  find_contours (fmul (Fin c) <$> x) (fmul (Fin c) <$> y) z level
  = fmap (M:=list) (fmap (M:=list) (scale (Fin c))) <$> find_contours x y z level.
Proof.
  intros Hx Hy Hkeys. unfold find_contours. rewrite !length_fmap.
  destruct (Nat.eqb_spec (length x) (shape1 z)) as [Hlx|]; [|done].
  destruct (Nat.eqb_spec (length y) (shape0 z)) as [Hly|]; [|done].
  simpl. destruct (_ || _); [done|].
  assert (∀ l, Forall finite l → Forall finite (fmul (Fin c) <$> l)) as Hfin.
  { intros l Hl. apply Forall_fmap. eapply Forall_impl; [done|].
    by intros a [q ->]%finite_Fin. }
  pose proof (all_segments_quantizable _ _ z level (Hfin x Hx) (Hfin y Hy)) as Hq'.
  rewrite !length_fmap, all_segments_scale in Hq'.
  rewrite all_segments_scale.
  apply connect_segments_fast_fmap; [by apply all_segments_quantizable|by apply Hq'|done].
Qed.




(** * Further properties *)

(** ** Order reasoning on rationals *)

Lemma this_plus (a b : Qc) : (this (a + b)%Qc == this a + this b)%Q.
Proof. apply Qred_correct. Qed.

Lemma this_minus (a b : Qc) : (this (a - b)%Qc == this a - this b)%Q.
Proof. unfold Qcminus, Qcopp. simpl. rewrite !Qred_correct. reflexivity. Qed.

Lemma this_opp (a : Qc) : (this (- a)%Qc == - this a)%Q.
Proof. apply Qred_correct. Qed.

Lemma this_mult (a b : Qc) : (this (a * b)%Qc == this a * this b)%Q.
Proof. apply Qred_correct. Qed.

Lemma this_Q2Qc (q : Q) : (this (Q2Qc q) == q)%Q.
Proof. apply Qred_correct. Qed.

Lemma Qc_eq_Qeq (a b : Qc) : a = b ↔ (this a == this b)%Q.
Proof. split; [by intros ->|apply Qc_is_canon]. Qed.

Lemma this_div (a b : Qc) :
  b ≠ Q2Qc 0%Q → (this (a / b)%Qc * this b == this a)%Q.
Proof. intros Hb. rewrite <-this_mult. apply Qc_eq_Qeq. by field. Qed.

(** Statements on [Qc] are moved to [Q], where [lra] and [nra] apply. *)
Ltac qc2q :=
  repeat match goal with
  | H : (_ <= _)%Qc |- _ => unfold Qcle in H
  | H : (_ < _)%Qc |- _ => unfold Qclt in H
  | H : ¬ (_ <= _)%Qc |- _ => apply Qcnot_le_lt in H; unfold Qclt in H
  | H : ¬ (_ < _)%Qc |- _ => apply Qcnot_lt_le in H; unfold Qcle in H
  | H : @eq Qc _ _ |- _ => apply Qc_eq_Qeq in H
  | H : ¬ (@eq Qc _ _) |- _ => rewrite Qc_eq_Qeq in H
  end;
  unfold Qcle, Qclt; rewrite ?Qc_eq_Qeq;
  repeat (rewrite ?this_plus, ?this_minus, ?this_mult, ?this_opp, ?this_Q2Qc in * ).

Lemma Qcdiv_between (n d : Qc) :
  d ≠ Q2Qc 0%Q →
  ((Q2Qc 0%Q <= n)%Qc ∧ (n <= d)%Qc) ∨ ((d <= n)%Qc ∧ (n <= Q2Qc 0%Q)%Qc) →
  (Q2Qc 0%Q <= n / d)%Qc ∧ (n / d <= Q2Qc 1%Q)%Qc.
Proof.
  intros Hd Hn. pose proof (this_div n d Hd) as Ht.
  destruct Hn as [[??]|[??]]; qc2q;
    generalize dependent (this (n / d)%Qc); generalize dependent (this n);
    generalize dependent (this d); intros; split; nra.
Qed.

Lemma Qcconvex_le (a b m t : Qc) :
  (a <= m)%Qc → (b <= m)%Qc → (Q2Qc 0%Q <= t)%Qc → (t <= Q2Qc 1%Q)%Qc →
  (a + t * (b - a) <= m)%Qc.
Proof.
  intros. qc2q.
  generalize dependent (this a); generalize dependent (this b);
    generalize dependent (this m); generalize dependent (this t); intros. nra.
Qed.

(** ** points_in_polygon and point_in_polygon *)



Lemma point_in_polygon_count (x y : float) (polygon : list point) :
  (∀ e, e ∈ edges (close_polygon polygon) → crossing (x, y) e = false) →
  point_in_polygon x y polygon = Some false.
Proof.
  intros Hcross. unfold point_in_polygon, points_in_polygon.
  destruct (length polygon <? 3); [done|]. simpl.
  unfold crossing_count.
  replace (filter _ _) with (@nil (point * point)); [done|].
  symmetry. induction (edges (close_polygon polygon)) as [|e es IH]; [done|].
  rewrite filter_cons_False.
  - apply IH. intros e' He'. apply Hcross. by right.
  - rewrite Hcross; [done|by left].
Qed.

(** X2: a query point with a NaN coordinate is classified outside, for every
    polygon. *)
Theorem nan_point_outside (x y : float) (polygon : list point) :
  isnan x || isnan y = true →
  point_in_polygon x y polygon = Some false.
Proof.
  intros Hnan. apply point_in_polygon_count. intros [[x1 y1] [x2 y2]] _.
  rewrite crossing_crosses. unfold crosses, straddles, fgt. simpl.
  destruct y as [|y]; [by destruct y1, y2|].
  destruct x as [|x]; [|done]. by rewrite andb_false_r.
Qed.

Lemma nan_point_outside_witness :
  point_in_polygon NaN (lit 0.5%Q) unit_square = Some false.
Proof. apply (nan_point_outside NaN (lit 0.5%Q) unit_square). reflexivity. Defined.

Lemma close_polygon_subseteq (polygon : list point) (v : point) :
  v ∈ close_polygon polygon → v ∈ polygon.
Proof.
  unfold close_polygon. destruct polygon as [|v0 l]; [done|].
  destruct (negb _); [|done]. rewrite elem_of_app, list_elem_of_singleton.
  intros [?| ->]; [done|by left].
Qed.

Lemma edges_adjacent_pairs (l : list point) : edges l = adjacent_pairs l.
Proof.
  unfold edges, adjacent_pairs.
  induction l as [|a [|b l] IH]; [done..|].
  change (removelast (a :: b :: l)) with (a :: removelast (b :: l)).
  simpl. f_equal. apply IH.
Qed.

Lemma elem_of_edges (l : list point) (e : point * point) :
  e ∈ edges l → e.1 ∈ l ∧ e.2 ∈ l.
Proof.
  rewrite edges_adjacent_pairs. unfold adjacent_pairs. destruct e as [a b].
  intros He. split.
  - by eapply elem_of_zip_l.
  - pose proof (elem_of_zip_r _ _ _ _ He) as Hb. destruct l; [done|by right].
Qed.

(** An edge that straddles the height [py] meets it between its endpoints. *)
Lemma x_intersection_le (x1 y1 x2 y2 py m : Qc) :
  xorb (bool_decide (py < y1)%Qc) (bool_decide (py < y2)%Qc) = true →
  (x1 <= m)%Qc → (x2 <= m)%Qc →
  ∃ xi, x_intersection ((Fin x1, Fin y1), (Fin x2, Fin y2)) (Fin py) = Fin xi
        ∧ (xi <= m)%Qc.
Proof.
  intros Hs H1 H2.
  assert (y2 - y1 ≠ Q2Qc 0%Q
          ∧ (((Q2Qc 0%Q <= py - y1)%Qc ∧ (py - y1 <= y2 - y1)%Qc)
             ∨ ((y2 - y1 <= py - y1)%Qc ∧ (py - y1 <= Q2Qc 0%Q)%Qc)))%Qc
    as [Hd Hn].
  { do 2 case_bool_decide; try done;
      (split; [intros ?|]; [|(left + right); split]); qc2q;
      generalize dependent (this y1); generalize dependent (this y2);
      generalize dependent (this py); intros; lra. }
  unfold x_intersection. simpl. rewrite decide_False by done.
  eexists. split; [done|].
  replace ((py - y1) * (x2 - x1) / (y2 - y1))%Qc
    with ((py - y1) / (y2 - y1) * (x2 - x1))%Qc by (by field).
  destruct (Qcdiv_between _ _ Hd Hn). by apply Qcconvex_le.
Qed.



Lemma crossing_count_snoc (p : point) (es : list (point * point)) (e : point * point) :
  crossing_count p (es ++ [e])
  = crossing_count p es + (if crossing p e then 1 else 0).
Proof.
  unfold crossing_count. rewrite filter_app, length_app. f_equal.
  rewrite filter_cons. destruct (crossing p e); by case_decide.
Qed.

Lemma crossing_degenerate (p v : point) : crossing p (v, v) = false.
Proof.
  rewrite crossing_crosses. unfold crosses, straddles. simpl.
  by rewrite xorb_nilpotent.
Qed.

Lemma List_last_snoc (l : list point) (v d : point) : List.last (l ++ [v]) d = v.
Proof. induction l as [|a [|b l] IH]; done. Qed.

Lemma close_polygon_closed (m : list point) (v0 : point) :
  head m = Some v0 → List.last m v0 = v0 →
  close_polygon m = if negb (np_allclose v0 v0) then m ++ [v0] else m.
Proof.
  destruct m; [done|]. intros [= ->] Hl. unfold close_polygon. by rewrite Hl.
Qed.

(** X5: giving the polygon closed, with the first vertex repeated at the
    end, changes nothing when the code would have appended that vertex
    itself. *)
Theorem explicit_closing (points polygon : list point) (v0 : point) :
  3 ≤ length polygon →
  head polygon = Some v0 →
  np_allclose v0 (List.last polygon v0) = false →
  points_in_polygon points (polygon ++ [v0]) = points_in_polygon points polygon.
Proof.
  intros Hlen Hhd Hclose. unfold points_in_polygon. rewrite length_app.
  destruct (Nat.ltb_spec (length polygon) 3) as [?|_]; [lia|].
  destruct (Nat.ltb_spec (length polygon + length [v0]) 3) as [?|_]; [simpl in *; lia|].
  apply list_fmap_ext. intros _ p _. cbv beta zeta. do 2 f_equal.
  destruct polygon as [|v l]; [done|]. injection Hhd as ->.
  assert (close_polygon (v0 :: l) = (v0 :: l) ++ [v0]) as ->.
  { unfold close_polygon. by rewrite Hclose. }
  rewrite (close_polygon_closed ((v0 :: l) ++ [v0]) v0)
    by (done || apply List_last_snoc).
  destruct (negb _); [|done].
  rewrite (edges_adjacent_pairs (_ ++ [v0])),
    (adjacent_pairs_snoc ((v0 :: l) ++ [v0]) v0 v0) by apply last_snoc.
  rewrite <-edges_adjacent_pairs, crossing_count_snoc, crossing_degenerate. lia.
Qed.

Lemma explicit_closing_witness :
  points_in_polygon two_points (unit_square ++ [(lit 0, lit 0)]%Q)
  = points_in_polygon two_points unit_square.
Proof.
  apply (explicit_closing two_points unit_square (lit 0, lit 0)%Q);
    [simpl; lia|reflexivity|compute_eq].
Defined.

(** An edge counts the same in both directions. *)
Lemma crosses_swap (p : point) (e : point * point) :
  crosses p (swap_edge e) = crosses p e.
Proof.
  destruct p as [px py], e as [[x1 y1] [x2 y2]].
  unfold crosses, straddles, swap_edge. cbn [fst snd].
  rewrite xorb_comm. destruct (xorb _ _) eqn:Hs; [|done].
  cbn [andb]. f_equal. unfold x_intersection.
  destruct py as [|py], y1 as [|y1], y2 as [|y2]; try done;
    try (by destruct x1, x2).
  destruct x1 as [|x1], x2 as [|x2]; try done.
  assert (y1 ≠ y2) as Hne.
  { intros ->. unfold fgt in Hs. by rewrite xorb_nilpotent in Hs. }
  simpl. rewrite !decide_False by (rewrite Qcminus_eq_0; congruence).
  f_equal. field. split; rewrite Qcminus_eq_0; congruence.
Qed.

Lemma crossing_swap (p : point) (e : point * point) :
  crossing p (swap_edge e) = crossing p e.
Proof. by rewrite !crossing_crosses, crosses_swap. Qed.

Lemma adjacent_pairs_reverse (l : list point) :
  adjacent_pairs (reverse l) = reverse (swap_edge <$> adjacent_pairs l).
Proof.
  induction l as [|a [|b l] IH]; [done..|].
  rewrite adjacent_pairs_cons, fmap_cons, !reverse_cons, <-IH.
  rewrite (reverse_cons l b), <-app_assoc.
  change ([b] ++ [a]) with ([b; a]).
  assert (∀ m : list point, adjacent_pairs (m ++ [b; a])
                            = adjacent_pairs (m ++ [b]) ++ [(b, a)]) as Hm.
  { intros m. change [b; a] with ([b] ++ [a]). rewrite app_assoc.
    apply adjacent_pairs_snoc, last_snoc. }
  by rewrite Hm, <-reverse_cons.
Qed.

Lemma crossing_count_reverse (p : point) (es : list (point * point)) :
  crossing_count p (reverse es) = crossing_count p es.
Proof.
  unfold crossing_count. induction es as [|e es IH]; [done|].
  rewrite reverse_cons, filter_app, length_app, IH, !filter_cons.
  case_decide; simpl; lia.
Qed.

Lemma List_last_reverse (a d : point) (l : list point) :
  List.last (reverse (a :: l)) d = a.
Proof. rewrite reverse_cons. apply List_last_snoc. Qed.



(** ** find_contours: the marching squares stage *)

Lemma all_segments_nil (x y : list float) (z : ndarray2) (level : float) :
  (∀ c, c ∈ cells z → cell_segments x y z level c = []) →
  all_segments x y z level = [].
Proof.
  intros Hc. apply Permutation_nil_r. rewrite all_segments_by_cell.
  induction (cells z) as [|c cs IH]; [done|].
  rewrite bind_cons, Hc by (by left). apply IH. intros c' ?. apply Hc. by right.
Qed.

Lemma find_contours_no_segments (x y : list float) (z : ndarray2) (level : float) :
  length x = shape1 z → length y = shape0 z →
  all_segments x y z level = [] →
  find_contours x y z level = Ok [].
Proof.
  intros Hx Hy Hs. unfold find_contours. rewrite Hx, Hy, !Nat.eqb_refl, Hs.
  simpl. by destruct (_ || _).
Qed.

(** X6: a field whose samples are all at or above the level, or of which no
    sample is at or above the level (a NaN level among these cases), has no
    contour: the call returns the empty list. *)
Theorem uniform_field_no_contour (x y : list float) (z : ndarray2) (level : float) :
  length x = shape1 z → length y = shape0 z →
  (∀ i j, i < shape0 z → j < shape1 z → (item z i j >=? level)%F = true)
  ∨ (∀ i j, i < shape0 z → j < shape1 z → (item z i j >=? level)%F = false) →
  find_contours x y z level = Ok [].
Proof.
  intros Hx Hy Hz. apply find_contours_no_segments; [done..|].
  apply all_segments_nil. intros [i j] [Hi Hj]%elem_of_cells. simpl in *.
  unfold cell_segments, case_index, above, z00, z01, z11, z10. simpl.
  destruct Hz as [Hz|Hz]; rewrite !Hz by lia; by destruct (valid _ _).
Qed.

Lemma uniform_field_no_contour_witness :
  find_contours unit_x unit_y saddle_grid (lit (-5)%Q) = Ok []
  ∧ find_contours unit_x unit_y saddle_grid NaN = Ok [].
Proof.
  split.
  - apply (uniform_field_no_contour unit_x unit_y saddle_grid (lit (-5)%Q));
      [reflexivity|reflexivity|].
    left. intros [|[|?]] [|[|?]] ??; simpl in *; reflexivity || lia.
  - apply (uniform_field_no_contour unit_x unit_y saddle_grid NaN);
      [reflexivity|reflexivity|].
    right. intros [|[|?]] [|[|?]] ??; simpl in *; reflexivity || lia.
Defined.

Lemma fge_shift (v level : float) (k : Qc) :
  (v + Fin k >=? level + Fin k)%F = (v >=? level)%F.
Proof.
  destruct v as [|v], level as [|l]; try done. unfold fge, fle. simpl.
  apply bool_decide_ext. symmetry. apply Qcplus_le_mono_r.
Qed.

Lemma isnan_shift (v : float) (k : Qc) : isnan (v + Fin k) = isnan v.
Proof. by destruct v. Qed.

Lemma fsub_shift (a b : float) (k : Qc) : ((a + Fin k) - (b + Fin k) = a - b)%F.
Proof. destruct a, b; simpl; try done. f_equal. ring. Qed.

Lemma mask_shift (z : ndarray2) (level : float) (k : Qc) (case : nat) (c : cell) :
  mask (shift_samples z (Fin k)) (level + Fin k) case c = mask z level case c.
Proof.
  unfold mask, valid, case_index, above, z00, z01, z11, z10, shift_samples. simpl.
  by rewrite !fge_shift, !isnan_shift.
Qed.

Lemma interp_edge_shift (x y : list float) (z : ndarray2) (level : float)
    (k : Qc) (c : cell) (e : nat) :
  interp_edge x y (shift_samples z (Fin k)) (level + Fin k) c e
  = interp_edge x y z level c e.
Proof.
  destruct c as [ci cj]. unfold interp_edge, z00, z01, z11, z10, shift_samples.
  cbn [item fst snd].
  destruct e as [|[|[|?]]]; by rewrite !fsub_shift.
Qed.

Lemma all_segments_shift (x y : list float) (z : ndarray2) (level : float) (k : Qc) :
  all_segments x y (shift_samples z (Fin k)) (level + Fin k)
  = all_segments x y z level.
Proof.
  unfold all_segments. apply list_bind_ext; [|done]. intros case.
  rewrite !case_segments_segs_on. unfold segs_on.
  apply list_bind_ext; [|done]. intros pr.
  rewrite (list_filter_iff _ (λ c, mask z level case c = true))
    by (intros c; by rewrite mask_shift).
  apply list_fmap_ext. intros _ c _. unfold seg_of. by rewrite !interp_edge_shift.
Qed.


Lemma length_bind_const {A B} (f : A → list B) (l : list A) (m : nat) :
  (∀ a, length (f a) = m) → length (l ≫= f) = length l * m.
Proof.
  intros Hf. induction l as [|a l IH]; [done|].
  rewrite bind_cons, length_app, IH, Hf. simpl. lia.
Qed.

Lemma length_cells (z : ndarray2) :
  length (cells z) = (shape0 z - 1) * (shape1 z - 1).
Proof.
  unfold cells. rewrite (length_bind_const _ _ (shape1 z - 1)).
  - by rewrite length_seq.
  - intros i. rewrite (length_bind_const _ _ 1) by done. rewrite length_seq. lia.
Qed.

Lemma edge_table_length (case : nat) : length (_EDGE_TABLE case) ≤ 2.
Proof. do 16 (destruct case as [|case]; [simpl; lia|]). simpl; lia. Qed.

Lemma all_segments_length (x y : list float) (z : ndarray2) (level : float) :
  length (all_segments x y z level) ≤ 2 * ((shape0 z - 1) * (shape1 z - 1)).
Proof.
  rewrite all_segments_by_cell, <-length_cells.
  induction (cells z) as [|c cs IH]; [done|].
  rewrite bind_cons, length_app. simpl length at 3.
  assert (length (cell_segments x y z level c) ≤ 2); [|lia].
  unfold cell_segments. destruct (valid z c); [|simpl; lia].
  rewrite length_fmap. apply edge_table_length.
Qed.

(** The interpolation parameter of an edge whose corners are on the two
    sides of the level. *)
Lemma interpolation_parameter_between (level va vb : Qc) :
  bool_decide (level <= va)%Qc ≠ bool_decide (level <= vb)%Qc →
  ∃ t : Qc,
    interpolation_parameter (Fin level) (Fin va) (Fin vb) = Fin t
    ∧ (Q2Qc 0%Q <= t)%Qc ∧ (t <= Q2Qc 1%Q)%Qc
    ∧ ((fabs (Fin vb - Fin va) <? lit 1e-10%Q)%F = false →
       (va + t * (vb - va))%Qc = level).
Proof.
  intros Hsep. unfold interpolation_parameter.
  destruct (fabs (Fin vb - Fin va) <? lit 1e-10%Q)%F.
  { exists (Q2Qc 0.5%Q). split; [done|]. split; [by apply Qcle_alt|].
    split; [by apply Qcle_alt|done]. }
  assert (vb - va ≠ Q2Qc 0%Q
          ∧ (((Q2Qc 0%Q <= level - va)%Qc ∧ (level - va <= vb - va)%Qc)
             ∨ ((vb - va <= level - va)%Qc ∧ (level - va <= Q2Qc 0%Q)%Qc)))%Qc
    as [Hd Hn].
  { do 2 case_bool_decide; try done;
      (split; [intros ?|]; [|(left + right); split]); qc2q;
      generalize dependent (this va); generalize dependent (this vb);
      generalize dependent (this level); intros; lra. }
  simpl. rewrite decide_False by done. eexists. split; [done|].
  destruct (Qcdiv_between _ _ Hd Hn). split; [done|]. split; [done|].
  intros _. by field.
Qed.



Lemma lookup_total_translate (d : float) (x : list float) (j : nat) :
  ((λ a, a + d)%F <$> x) !!! j = (x !!! j + d)%F.
Proof.
  destruct (decide (j < length x)) as [Hj|Hj].
  - exact (list_lookup_total_fmap (λ a, (a + d)%F) x j Hj).
  - rewrite !list_lookup_total_alt, list_lookup_fmap.
    by rewrite (lookup_ge_None_2 x j) by lia.
Qed.

Lemma fadd_interpolate (d t a b : float) :
  ((a + d) + t * ((b + d) - (a + d)) = (a + t * (b - a)) + d)%F.
Proof. unfold fadd, fsub, fmul. float_ring. Qed.

Lemma interp_edge_translate (dx dy : float) (x y : list float) (z : ndarray2)
    (level : float) (c : cell) (e : nat) :
  (interp_edge ((λ a, a + dx)%F <$> x) ((λ a, a + dy)%F <$> y) z level c e).1
  = translate dx dy (interp_edge x y z level c e).1.
Proof.
  destruct c as [ci cj]. unfold interp_edge, translate.
  destruct e as [|[|[|?]]]; cbn [fst snd];
    by rewrite !lookup_total_translate, !fadd_interpolate.
Qed.

Lemma all_segments_translate (dx dy : float) (x y : list float) (z : ndarray2)
    (level : float) :
  all_segments ((λ a, a + dx)%F <$> x) ((λ a, a + dy)%F <$> y) z level
  = map_segment (translate dx dy) <$> all_segments x y z level.
Proof.
  unfold all_segments. rewrite fmap_bind. apply list_bind_ext; [|done].
  intros case. rewrite !case_segments_segs_on. unfold segs_on.
  rewrite fmap_bind. apply list_bind_ext; [|done]. intros pr.
  rewrite <-list_fmap_compose. apply list_fmap_ext. intros _ c _.
  unfold seg_of, map_segment. simpl. by rewrite !interp_edge_translate.
Qed.



(** ** _connect_segments_fast: what a returned result tells *)

Lemma connect_segments_fast_Ok (segments : list segment) (tolerance : float)
    (paths : list (list point)) :
  _connect_segments_fast segments tolerance = Ok paths →
  Forall (quantizable tolerance) segments
  ∧ connect_segments_state segments tolerance
    = Ok (replicate (length segments) true, paths)
  ∧ length (paths ≫= adjacent_pairs) = length segments
  ∧ Forall (well_formed_path segments) paths.
Proof.
  rewrite connect_segments_fast_state. intros (st & Hst & [= <-])%bind_Ok.
  assert (Forall (quantizable tolerance) segments) as Hquant.
  { unfold connect_segments_state in Hst.
    apply bind_Ok in Hst as (adjacency & Hb & _).
    by eapply build_adjacency_quantizable. }
  destruct (connect_segments_state_spec segments tolerance Hquant)
    as (paths & Hst' & (owner & Hperm & Hown) & HF).
  rewrite Hst in Hst'. injection Hst' as ->. simpl.
  split; [done|]. split; [done|]. split; [|done].
  by rewrite (Forall2_length _ _ _ Hown), Hperm, length_seq.
Qed.

Lemma length_paths_le (segments : list segment) (paths : list (list point)) :
  Forall (well_formed_path segments) paths →
  length paths ≤ length (paths ≫= adjacent_pairs).
Proof.
  induction 1 as [|path paths [Hp _] _ IH]; [done|].
  rewrite bind_cons, length_app, length_adjacent_pairs. simpl. lia.
Qed.

(** X12: a call that returns gives at most as many paths as there are
    segments, and gives no path only for no segment. *)
Theorem path_count (segments : list segment) (tolerance : float)
    (paths : list (list point)) :
  _connect_segments_fast segments tolerance = Ok paths →
  length paths ≤ length segments ∧ (paths = [] ↔ segments = []).
Proof.
  intros Hp. destruct (connect_segments_fast_Ok _ _ _ Hp) as (_ & _ & Hlen & HF).
  pose proof (length_paths_le _ _ HF) as Hle. split; [lia|]. split.
  - intros ->. simpl in Hlen. by destruct segments.
  - intros ->. by injection Hp as <-.
Qed.

Lemma path_count_witness :
  length chain_paths ≤ length chain_segments
  ∧ (chain_paths = [] ↔ chain_segments = []).
Proof.
  apply (path_count chain_segments default_tolerance chain_paths). compute_eq.
Defined.

(** X8: the size of the result is linear in the size of the grid: there are
    at most two segments for each cell, at most as many paths, and at most
    twice as many points. *)
Theorem contour_size_bound (x y : list float) (z : ndarray2) (level : float) :
  length (all_segments x y z level) ≤ 2 * ((shape0 z - 1) * (shape1 z - 1))
  ∧ ∀ paths, find_contours x y z level = Ok paths →
      length paths ≤ 2 * ((shape0 z - 1) * (shape1 z - 1))
      ∧ sum_list (length <$> paths) ≤ 4 * ((shape0 z - 1) * (shape1 z - 1)).
Proof.
  pose proof (all_segments_length x y z level) as Hn. split; [done|].
  intros paths. unfold find_contours.
  repeat case_match; [done|intros [= <-]; simpl; lia|].
  intros Hp. destruct (connect_segments_fast_Ok _ _ _ Hp) as (_ & _ & Hlen & HF).
  pose proof (length_paths_le _ _ HF) as Hle.
  rewrite (proj1 (sum_list_lengths _ _ HF)). lia.
Qed.

Lemma contour_size_bound_witness :
  length saddle_paths ≤ 2 * ((shape0 saddle_grid - 1) * (shape1 saddle_grid - 1))
  ∧ sum_list (length <$> saddle_paths)
    ≤ 4 * ((shape0 saddle_grid - 1) * (shape1 saddle_grid - 1)).
Proof.
  apply (proj2 (contour_size_bound unit_x unit_y saddle_grid (lit 0%Q))).
  compute_eq.
Defined.



(** A NaN among the coordinates does raise when it reaches a crossing. *)
Example find_contours_nan_coordinate :
  find_contours [lit 0%Q; NaN] unit_y saddle_grid (lit 0%Q) = Raise RoundNaN.
Proof. compute_eq. Qed.

(** [round] gives an integer within one half of its argument. *)
Lemma round_half_even_near (q : Qc) :
  (Q2Qc (inject_Z (round_half_even q)) - Q2Qc 0.5%Q <= q)%Qc
  ∧ (q <= Q2Qc (inject_Z (round_half_even q)) + Q2Qc 0.5%Q)%Qc.
Proof.
  unfold round_half_even.
  pose proof (Qfloor_le q) as Hlo. pose proof (Qlt_floor q) as Hhi.
  rewrite inject_Z_plus in Hhi. change (inject_Z 1) with 1%Q in Hhi.
  repeat case_bool_decide; try destruct (Z.even _);
    qc2q; rewrite ?inject_Z_plus; change (inject_Z 1) with 1%Q;
    generalize dependent (inject_Z (Qfloor q)); generalize dependent (this q);
    intros; split; lra.
Qed.

Lemma same_round_close (a a' : Qc) :
  round_half_even (a / Q2Qc 1e-8%Q) = round_half_even (a' / Q2Qc 1e-8%Q) →
  (Qcabs (a - a') <= Q2Qc 1e-8%Q)%Qc.
Proof.
  intros Hr.
  destruct (round_half_even_near (a / Q2Qc 1e-8%Q)) as [H1 H2].
  destruct (round_half_even_near (a' / Q2Qc 1e-8%Q)) as [H3 H4].
  rewrite Hr in H1, H2.
  pose proof (this_div a _ tolerance_nonzero) as Ha.
  pose proof (this_div a' _ tolerance_nonzero) as Ha'.
  apply Qcabs_Qcle_condition. qc2q.
  generalize dependent (inject_Z (round_half_even (a' / Q2Qc 1e-8%Q))).
  generalize dependent (this (a / Q2Qc 1e-8%Q)%Qc).
  generalize dependent (this (a' / Q2Qc 1e-8%Q)%Qc).
  generalize dependent (this a). generalize dependent (this a').
  assert ((1e-8 == 1 # 100000000)%Q) as E by reflexivity.
  intros. rewrite E in *. split; lra.
Qed.



(** ** _connect_segments_fast: order and maximality of the paths *)

Section path_order.
Context (tolerance : float) (segments : list segment)
        (adjacency : gmap key (list (nat * nat))).

Lemma extend_once_pairs direction used path used' path' pr :
  extend_once tolerance segments adjacency direction (used, path)
    = Ok (Some (used', path')) →
  pr ∈ adjacent_pairs path → pr ∈ adjacent_pairs path'.
Proof.
  intros (e & q & si & ei & seg & Hend & _ & _ & _ & _ & _ & ->)%extend_once_Some Hpr.
  simpl. destruct (direction =? 1).
  - rewrite (adjacent_pairs_snoc _ _ _ Hend). apply elem_of_app. by left.
  - destruct path as [|e' rest]; [done|]. rewrite adjacent_pairs_cons. by right.
Qed.

Lemma extend_pairs fuel direction used path used' path' pr :
  extend tolerance segments adjacency fuel direction (used, path) = Ok (used', path') →
  pr ∈ adjacent_pairs path → pr ∈ adjacent_pairs path'.
Proof.
  revert used path. induction fuel as [|fuel IH]; intros used path; [done|].
  rewrite extend_S. intros (r & Hr & H)%bind_Ok Hpr.
  destruct r as [[used1 path1]|]; [|by injection H as <- <-].
  eapply IH; [done|]. by eapply extend_once_pairs.
Qed.

Lemma start_path_Ok fuel used paths start_idx used' paths' :
  start_path tolerance segments adjacency fuel (used, paths) start_idx
    = Ok (used', paths') →
  (used !! start_idx = Some true ∧ used' = used ∧ paths' = paths)
  ∨ (∃ path, used !! start_idx = Some false ∧ paths' = paths ++ [path]
             ∧ starts_with segments path start_idx).
Proof.
  unfold start_path. intros (u & Hu%getitem_Ok & H)%bind_Ok.
  destruct u; [left; by injection H as <- <-|right].
  apply bind_Ok in H as (used0 & _ & (seg & Hseg%getitem_Ok & H)%bind_Ok).
  apply bind_Ok in H as ([used1 path1] & H1 & ([used2 path2] & H2 & H)%bind_Ok).
  injection H as <- <-. exists path2. split; [done|]. split; [done|].
  exists seg. split; [done|].
  eapply extend_pairs; [done|]. eapply extend_pairs; [done|].
  apply list_elem_of_singleton. reflexivity.
Qed.

Lemma start_paths_starts fuel used paths start_idxs used' paths' :
  start_paths tolerance segments adjacency fuel (used, paths) start_idxs
    = Ok (used', paths') →
  ∃ new starts,
    paths' = paths ++ new
    ∧ starts `sublist_of` start_idxs
    ∧ Forall2 (starts_with segments) new starts
    ∧ (∀ i rest, start_idxs = i :: rest → used !! i = Some false →
                 head starts = Some i).
Proof.
  revert used paths. induction start_idxs as [|i idxs IH]; intros used paths.
  - intros [= <- <-]. exists [], []. rewrite app_nil_r.
    split; [done|]. split; [done|]. split; [constructor|done].
  - rewrite start_paths_cons. intros ([used1 paths1] & H1 & H)%bind_Ok.
    destruct (IH _ _ H) as (new & starts & -> & Hsub & HF & _).
    apply start_path_Ok in H1 as [(Hu & -> & ->)|(path & Hu & -> & Hst)].
    + exists new, starts. split; [done|]. split; [by constructor|]. split; [done|].
      intros ?? [= <- <-] ?. congruence.
    + exists (path :: new), (i :: starts). rewrite <-app_assoc.
      split; [done|]. split; [by constructor|]. split; [by constructor|].
      by intros ?? [= <- <-] ?.
Qed.
End path_order.

(** X14: the paths come in the order of their first segments: each path
    holds the two endpoints of the segment it was started from as consecutive
    points, in the orientation of that segment; these segments have
    increasing indices, and the first path is started from segment 0. *)
Theorem path_order (segments : list segment) (tolerance : float)
    (paths : list (list point)) :
  _connect_segments_fast segments tolerance = Ok paths →
  ∃ starts,
    starts `sublist_of` seq 0 (length segments)
    ∧ Forall2 (starts_with segments) paths starts
    ∧ (segments ≠ [] → head starts = Some 0).
Proof.
  rewrite connect_segments_fast_state. intros (st & Hst & [= <-])%bind_Ok.
  unfold connect_segments_state in Hst.
  apply bind_Ok in Hst as (adjacency & _ & Hst). destruct st as [used paths].
  apply start_paths_starts in Hst as (new & starts & -> & Hsub & HF & Hhd).
  exists starts. split; [done|]. split; [done|].
  intros Hne. destruct segments as [|s segs]; [done|].
  by apply (Hhd 0 (seq 1 (length segs))).
Qed.

Lemma path_order_witness :
  ∃ starts,
    starts `sublist_of` seq 0 (length chain_segments)
    ∧ Forall2 (starts_with chain_segments) chain_paths starts
    ∧ (chain_segments ≠ [] → head starts = Some 0).
Proof.
  apply (path_order chain_segments default_tolerance chain_paths). compute_eq.
Defined.

(** *** Maximal paths *)

Lemma find_unused_None used es si ei :
  find_unused used es = Ok None → (si, ei) ∈ es → used !! si = Some true.
Proof.
  induction es as [|[sj ej] es IH]; simpl; [by intros _ ?%elem_of_nil|].
  intros (u & Hu%getitem_Ok & H)%bind_Ok Hin. destruct u; [|done].
  apply elem_of_cons in Hin as [[= -> ->]|Hin]; [done|by apply IH].
Qed.

Lemma entries_complete tolerance segments k i s q :
  segments !! i = Some s →
  (quantize tolerance s.1 = Ok q → (k + i, 0) ∈ entries tolerance segments k q)
  ∧ (quantize tolerance s.2 = Ok q → (k + i, 1) ∈ entries tolerance segments k q).
Proof.
  revert k i. induction segments as [|[p0 p1] rest IH]; intros k i Hs; [done|].
  simpl. destruct i as [|i].
  - injection Hs as <-. rewrite Nat.add_0_r. simpl. split; intros Hq.
    + rewrite decide_True by done. apply elem_of_app. left. by left.
    + apply elem_of_app. right. rewrite decide_True by done.
      apply elem_of_app. left. by left.
  - destruct (IH (S k) i Hs) as [H1 H2].
    replace (k + S i) with (S k + i) by lia.
    split; intros Hq; rewrite !elem_of_app; right; right; auto.
Qed.

Lemma sealed_grows tolerance segments used used' e :
  grows used used' → sealed tolerance segments used e →
  sealed tolerance segments used' e.
Proof. intros Hg Hs i s Hi Hk. apply Hg. by eapply Hs. Qed.

Section maximal.
Context (tolerance : float) (segments : list segment)
        (adjacency : gmap key (list (nat * nat))).
Hypothesis Hadj : ∀ q, adj_get adjacency q = entries tolerance segments 0 q.

(** At the [break] of line 190 every segment at the end of the path is used. *)
Lemma extend_once_None direction used path e :
  extend_once tolerance segments adjacency direction (used, path) = Ok None →
  (if direction =? 1 then list.last path else path !! 0) = Some e →
  sealed tolerance segments used e.
Proof.
  unfold extend_once.
  intros (e' & He & (q & Hq & (found & Hf & H)%bind_Ok)%bind_Ok)%bind_Ok Hend.
  assert (e' = e) as ->.
  { destruct (direction =? 1).
    - unfold getlast in He. rewrite Hend in He. by injection He.
    - apply getitem_Ok in He. congruence. }
  destruct found as [[si ei]|].
  { by apply bind_Ok in H as (? & ? & (? & ? & ?)%bind_Ok). }
  rewrite Hadj in Hf.
  intros i s Hs [Hk|Hk]; unfold same_key in Hk; rewrite Hq in Hk.
  - apply (find_unused_None _ _ i 0 Hf).
    by apply (entries_complete tolerance segments 0 i s q Hs).
  - apply (find_unused_None _ _ i 1 Hf).
    by apply (entries_complete tolerance segments 0 i s q Hs).
Qed.

Lemma extend_exit fuel direction st st' :
  extend tolerance segments adjacency fuel direction st = Ok st' →
  extend_once tolerance segments adjacency direction st' = Ok None.
Proof.
  revert st. induction fuel as [|fuel IH]; intros st; [done|].
  rewrite extend_S. intros (r & Hr & H)%bind_Ok.
  destruct r as [st1|]; [by eapply IH|by injection H as <-].
Qed.

(** An iteration adds an endpoint of a segment that was not used when the
    path was started, and keeps the other end of the path. *)
Lemma extend_once_fresh direction used0 used path used' path' :
  extend_once tolerance segments adjacency direction (used, path)
    = Ok (Some (used', path')) →
  length used0 = length used → grows used0 used →
  Forall (fresh segments used0) path →
  length used0 = length used' ∧ grows used0 used'
  ∧ Forall (fresh segments used0) path'
  ∧ (if direction =? 1 then path' !! 0 = path !! 0
     else list.last path' = list.last path).
Proof.
  intros (e & q & si & ei & seg & Hend & _ & _ & Hu & Hseg & -> & ->)%extend_once_Some
    Hlen Hg Hf.
  split; [by rewrite length_insert|].
  split; [intros j Hj; by apply grows_mark, Hg|].
  assert (fresh segments used0 (if ei =? 0 then seg.2 else seg.1)) as Hnew.
  { exists si, seg. split; [done|]. split; [destruct (ei =? 0); auto|].
    destruct (lookup_lt_is_Some_2 used0 si) as [b Hb].
    { rewrite Hlen. by eapply lookup_lt_Some. }
    destruct b; [|done]. apply Hg in Hb. congruence. }
  simpl. destruct (direction =? 1).
  - split; [apply Forall_app; split; [done|by constructor]|].
    destruct path as [|p path]; [done|done].
  - split; [by constructor|]. destruct path as [|p path]; [done|done].
Qed.

Lemma extend_fresh fuel direction used0 used path used' path' :
  extend tolerance segments adjacency fuel direction (used, path)
    = Ok (used', path') →
  length used0 = length used → grows used0 used →
  Forall (fresh segments used0) path →
  length used0 = length used' ∧ grows used0 used'
  ∧ Forall (fresh segments used0) path'
  ∧ (if direction =? 1 then path' !! 0 = path !! 0
     else list.last path' = list.last path).
Proof.
  revert used path. induction fuel as [|fuel IH]; intros used path; [done|].
  rewrite extend_S. intros (r & Hr & H)%bind_Ok Hlen Hg Hf.
  destruct r as [[used1 path1]|].
  - destruct (extend_once_fresh _ _ _ _ _ _ Hr Hlen Hg Hf) as (Hlen1 & Hg1 & Hf1 & He1).
    destruct (IH _ _ H Hlen1 Hg1 Hf1) as (Hlen2 & Hg2 & Hf2 & He2).
    repeat split; try done. destruct (direction =? 1); congruence.
  - injection H as <- <-. repeat split; try done. by destruct (direction =? 1).
Qed.

(** The extension loop only marks segments and keeps the other end of the
    path. *)
Lemma extend_keeps fuel direction used path used' path' :
  extend tolerance segments adjacency fuel direction (used, path)
    = Ok (used', path') →
  grows used used'
  ∧ (if direction =? 1 then path' !! 0 = path !! 0
     else list.last path' = list.last path).
Proof.
  revert used path. induction fuel as [|fuel IH]; intros used path; [done|].
  rewrite extend_S. intros (r & Hr & H)%bind_Ok.
  destruct r as [[used1 path1]|].
  - destruct (IH _ _ H) as [Hg He].
    apply extend_once_Some in Hr
      as (e & q & si & ei & seg & Hend & _ & _ & _ & _ & -> & ->).
    split; [intros j Hj; by apply Hg, grows_mark|].
    simpl in He. destruct (direction =? 1); rewrite He.
    + by destruct path.
    + by destruct path.
  - injection H as <- <-. split; [by intros ?|by destruct (direction =? 1)].
Qed.

(** The body of the loop over [start_idx] keeps the invariant. *)
Lemma start_path_chains fuel used paths start_idx used' paths' :
  start_path tolerance segments adjacency fuel (used, paths) start_idx
    = Ok (used', paths') →
  chains tolerance segments used paths → chains tolerance segments used' paths'.
Proof.
  unfold start_path. intros (u & Hu%getitem_Ok & H)%bind_Ok (Hlen & Hsealed & Hsep).
  destruct u; [by injection H as <- <-|].
  apply bind_Ok in H as (used0 & [Hi ->]%setitem_Ok & (seg & Hseg%getitem_Ok & H)%bind_Ok).
  apply bind_Ok in H as ([used1 path1] & H1 & ([used2 path2] & H2 & H)%bind_Ok).
  injection H as <- <-.
  assert (Forall (fresh segments used) [seg.1; seg.2]) as Hf0.
  { repeat constructor; exists start_idx, seg; auto. }
  destruct (extend_fresh _ _ used _ _ _ _ H1) as (Hlen1 & Hg1 & Hf1 & _);
    [by rewrite length_insert|apply grows_mark|done|].
  destruct (extend_fresh _ _ used _ _ _ _ H2 Hlen1 Hg1 Hf1) as (Hlen2 & Hg2 & Hf2 & _).
  destruct (extend_keeps _ _ _ _ _ _ H2) as [Hg12 Hlast]. simpl in Hlast.
  split; [congruence|]. split.
  - intros path e [Hin| ->%list_elem_of_singleton]%elem_of_app Hend.
    + eapply sealed_grows; [exact Hg2|]. by eapply Hsealed.
    + destruct Hend as [Hhd|Hl].
      * apply (extend_once_None 0 used2 path2 e); [|done].
        by apply (extend_exit _ _ _ _ H2).
      * eapply sealed_grows; [exact Hg12|].
        apply (extend_once_None 1 used1 path1 e); [|by rewrite <-Hlast].
        by apply (extend_exit _ _ _ _ H1).
  - intros i j pi pj e p Hpi Hpj Hij Hend Hp Hk.
    destruct (decide (j < length paths)) as [Hj|Hj].
    + rewrite lookup_app_l in Hpi by lia. rewrite lookup_app_l in Hpj by done.
      by eapply (Hsep i j).
    + rewrite lookup_app_r in Hpj by lia.
      assert (j = length paths) as ->.
      { apply lookup_lt_Some in Hpj. simpl in Hpj. lia. }
      rewrite Nat.sub_diag in Hpj. injection Hpj as <-.
      rewrite lookup_app_l in Hpi by done.
      rewrite Forall_forall in Hf2.
      destruct (Hf2 p Hp) as (k & s & Hs & Hps & Huk).
      assert (used !! k = Some true); [|congruence].
      apply (Hsealed pi e (list_elem_of_lookup_2 _ _ _ Hpi) Hend k s Hs).
      destruct Hps as [-> | ->]; auto.
Qed.

Lemma start_paths_chains fuel used paths start_idxs used' paths' :
  start_paths tolerance segments adjacency fuel (used, paths) start_idxs
    = Ok (used', paths') →
  chains tolerance segments used paths → chains tolerance segments used' paths'.
Proof.
  revert used paths. induction start_idxs as [|i idxs IH]; intros used paths.
  - by intros [= <- <-].
  - rewrite start_paths_cons. intros ([used1 paths1] & H1 & H)%bind_Ok Hc.
    eapply IH; [done|]. by eapply start_path_chains.
Qed.
End maximal.

(** X13: the paths are maximal: no point of a path collides, under the
    quantization, with the first or the last point of a path that comes
    before it in the result. *)
Theorem paths_maximal (segments : list segment) (tolerance : float)
    (paths : list (list point)) :
  _connect_segments_fast segments tolerance = Ok paths →
  separated tolerance paths.
Proof.
  rewrite connect_segments_fast_state. intros (st & Hst & [= <-])%bind_Ok.
  unfold connect_segments_state in Hst.
  apply bind_Ok in Hst as (adjacency & Hadj & Hst). destruct st as [used paths].
  eapply (start_paths_chains tolerance segments adjacency) in Hst as (_ & _ & Hsep);
    [done| |].
  - intros q. by rewrite (build_adjacency_get _ _ _ _ _ Hadj).
  - split; [by rewrite length_replicate|]. split.
    + by intros ?? ?%elem_of_nil.
    + by intros i j pi pj e p ?.
Qed.

Lemma paths_maximal_witness : separated default_tolerance chain_paths.
Proof.
  apply (paths_maximal chain_segments default_tolerance chain_paths). compute_eq.
Defined.
